(** * Kanban board store (src/App.tsx): embedding and verification

    The store of [useKanbanStore] is embedded as pure functions on
    [IKanbanState]: every action of the hook hands React an updater
    [prevState => newState], and that updater is what is defined here.
    The values the actions read from their environment are explicit
    arguments: each [Date.now()] reading, and the render snapshot [state]
    that the [addList] callback closes over.

    The handlers of the components (sections 4 and 5 of the source) are
    functions on the state of the store and of their component.

    Strings are [string] (sequences of 8-bit characters; a non-ASCII
    character is its UTF-8 bytes), numbers are [Z] (every number the store
    makes is an integer: a clock reading or an array length). *)

From Stdlib Require Import ZArith Ascii String Lia.
From Stdlib Require Import Decimal DecimalPos DecimalN DecimalZ.
From stdpp Require Import base decidable option list strings gmap.

Local Open Scope string_scope.
Local Open Scope list_scope.
Local Open Scope Z_scope.

(** ** The JavaScript runtime primitives the source calls *)

Module Js.

(** A call that may throw: the value, or the fact that it threw. *)
Inductive completion (A : Type) : Type :=
| Normal (a : A)
| Throw.
Global Arguments Normal {A} a.
Global Arguments Throw {A}.

Definition digit_char (k : N) : ascii := ascii_of_N (48 + k).

(** The characters of a decimal numeral, most significant digit first. *)
Fixpoint uint_chars (d : uint) : list ascii :=
  match d with
  | Nil => []
  | D0 d => digit_char 0 :: uint_chars d
  | D1 d => digit_char 1 :: uint_chars d
  | D2 d => digit_char 2 :: uint_chars d
  | D3 d => digit_char 3 :: uint_chars d
  | D4 d => digit_char 4 :: uint_chars d
  | D5 d => digit_char 5 :: uint_chars d
  | D6 d => digit_char 6 :: uint_chars d
  | D7 d => digit_char 7 :: uint_chars d
  | D8 d => digit_char 8 :: uint_chars d
  | D9 d => digit_char 9 :: uint_chars d
  end.

Definition int_chars (d : signed_int) : list ascii :=
  match d with
  | Pos u => uint_chars u
  | Neg u => "-"%char :: uint_chars u
  end.

(** [Number.prototype.toString] on an integer: decimal, no leading
    zero, a minus sign for a negative number (what a template literal
    does to [Date.now()]). *)
Definition Number_chars (n : Z) : list ascii := int_chars (Z.to_int n).
Definition Number_toString (n : Z) : string :=
  string_of_list_ascii (Number_chars n).

(** [String.prototype.toLowerCase] is the runtime's: it follows the case
    tables of Unicode, whole string by whole string (a capital sigma
    lowers to one letter at the end of a word and to another elsewhere),
    and the source has no copy of them. The definitions that call it take
    it as the argument [toLowerCase]. What is fixed here is its value on
    ASCII text, where it lowers the letters A to Z and nothing else. *)
Definition ascii_only (s : string) : Prop :=
  Forall (fun c => (N_of_ascii c < 128)%N) (list_ascii_of_string s).

Definition ascii_lower_char (c : ascii) : ascii :=
  let n := N_of_ascii c in
  if ((65 <=? n) && (n <=? 90))%N then ascii_of_N (n + 32) else c.

Fixpoint asciiLowerCase (s : string) : string :=
  match s with
  | EmptyString => EmptyString
  | String c s' => String (ascii_lower_char c) (asciiLowerCase s')
  end.

(** [s.startsWith(p)] *)
Fixpoint startsWith (s p : string) {struct p} : bool :=
  match p, s with
  | EmptyString, _ => true
  | String _ _, EmptyString => false
  | String a p', String b s' => bool_decide (a = b) && startsWith s' p'
  end.

(** [String.prototype.includes]: [p] occurs in [s] at some position. *)
Fixpoint includes (s p : string) : bool :=
  startsWith s p ||
  match s with
  | EmptyString => false
  | String _ s' => includes s' p
  end.

End Js.

(** ** Section 1 of the source: the data *)

Module IList.
Record t : Type := mk {
  id : string;
  title : string;
  colorVar : string;
  order : Z;
}.
End IList.

Module ICard.
Record t : Type := mk {
  id : string;
  listId : string;
  title : string;
  description : string;
  createdAt : Z;
}.
End ICard.

Inductive Theme : Type := light | dark.

Record IKanbanState : Type := mkState {
  lists : list IList.t;
  cards : list ICard.t;
  theme : Theme;
  searchTerm : string;
}.

Global Instance IList_eq_dec : EqDecision IList.t.
Proof. solve_decision. Defined.
Global Instance ICard_eq_dec : EqDecision ICard.t.
Proof. solve_decision. Defined.
Global Instance Theme_eq_dec : EqDecision Theme.
Proof. solve_decision. Defined.
Global Instance IKanbanState_eq_dec : EqDecision IKanbanState.
Proof. solve_decision. Defined.

(** ** Section 2 of the source: the initial data *)

Definition INITIAL_LISTS : list IList.t :=
  [ IList.mk "list-1" "A Fazer" "--color-list-red" 0;
    IList.mk "list-2" "Em Progresso" "--color-list-blue" 1;
    IList.mk "list-3" "Concluído" "--color-list-green" 2 ].

(** [INITIAL_CARDS] is evaluated once, when the module is loaded, and
    reads the clock four times: [now k] is the k-th reading. *)
Definition INITIAL_CARDS (now : nat -> Z) : list ICard.t :=
  [ ICard.mk "card-1" "list-1" "Criar Arquitetura do Projeto"
      "Definir o layout do Board e os componentes principais (Lista, Cartão, Modal)."
      (now 0%nat - 3600000);
    ICard.mk "card-2" "list-1" "Implementar Persistência"
      "Configurar o salvamento e carregamento dos dados no localStorage."
      (now 1%nat - 1800000);
    ICard.mk "card-3" "list-2" "Desenvolver Drag & Drop"
      "Aplicar a lógica de D&D para mover cartões entre as colunas."
      (now 2%nat - 600000);
    ICard.mk "card-4" "list-3" "Configurar Tema Escuro/Claro"
      "Criar o seletor de tema e aplicar estilos responsivos."
      (now 3%nat - 7200000) ].

Definition STORAGE_KEY : string := "kanban-board-state".

(** The object literal at the end of [getInitialState]. *)
Definition seedState (now : nat -> Z) : IKanbanState :=
  {| lists := INITIAL_LISTS;
     cards := INITIAL_CARDS now;
     theme := light;
     searchTerm := "" |}.

(** ** Section 3 of the source: the actions of [useKanbanStore] *)

Definition setCardList (cardId newListId : string)
    (prevState : IKanbanState) : IKanbanState :=
  {| lists := lists prevState;
     cards := (fun card =>
                 if decide (ICard.id card = cardId)
                 then ICard.mk (ICard.id card) newListId (ICard.title card)
                        (ICard.description card) (ICard.createdAt card)
                 else card) <$> cards prevState;
     theme := theme prevState;
     searchTerm := searchTerm prevState |}.

(** [addCard] reads the clock twice: [idNow] for the id, [createdNow]
    for [createdAt]. *)
Definition addCard (idNow createdNow : Z) (listId title description : string)
    (prevState : IKanbanState) : IKanbanState :=
  let newCard :=
    ICard.mk ("card-" +:+ Js.Number_toString idNow) listId title description
      createdNow in
  {| lists := lists prevState;
     cards := cards prevState ++ [newCard];
     theme := theme prevState;
     searchTerm := searchTerm prevState |}.

Definition updateCard (cardId newTitle newDescription : string)
    (prevState : IKanbanState) : IKanbanState :=
  {| lists := lists prevState;
     cards := (fun card =>
                 if decide (ICard.id card = cardId)
                 then ICard.mk (ICard.id card) (ICard.listId card) newTitle
                        newDescription (ICard.createdAt card)
                 else card) <$> cards prevState;
     theme := theme prevState;
     searchTerm := searchTerm prevState |}.

Definition deleteCard (cardId : string)
    (prevState : IKanbanState) : IKanbanState :=
  {| lists := lists prevState;
     cards := filter (fun card => ICard.id card <> cardId) (cards prevState);
     theme := theme prevState;
     searchTerm := searchTerm prevState |}.

(** [addList] takes [order] from [state], the snapshot of the render that
    created the callback (its dependency is [state.lists.length]), and
    appends to [prevState], the state React holds when the update runs. *)
Definition addList (state : IKanbanState) (now : Z) (title : string)
    (prevState : IKanbanState) : IKanbanState :=
  let newList :=
    IList.mk ("list-" +:+ Js.Number_toString now) title "--color-list-yellow"
      (Z.of_nat (length (lists state))) in
  {| lists := lists prevState ++ [newList];
     cards := cards prevState;
     theme := theme prevState;
     searchTerm := searchTerm prevState |}.

Definition toggleTheme (prevState : IKanbanState) : IKanbanState :=
  {| lists := lists prevState;
     cards := cards prevState;
     theme := match theme prevState with light => dark | dark => light end;
     searchTerm := searchTerm prevState |}.

Definition setSearchTerm (term : string)
    (prevState : IKanbanState) : IKanbanState :=
  {| lists := lists prevState;
     cards := cards prevState;
     theme := theme prevState;
     searchTerm := term |}.

Definition reorderCards (sourceListId : option string)
    (cardId targetListId : string) (prevState : IKanbanState) : IKanbanState :=
  setCardList cardId targetListId prevState.

(** One call of a store action, with what it reads from the clock. *)
Inductive Action : Type :=
| SetCardList (cardId newListId : string)
| AddCard (idNow createdNow : Z) (listId title description : string)
| UpdateCard (cardId newTitle newDescription : string)
| DeleteCard (cardId : string)
| AddList (now : Z) (title : string)
| ToggleTheme
| SetSearchTerm (term : string)
| ReorderCards (sourceListId : option string) (cardId targetListId : string).

(** An action called from a handler of the render of [rendered], applied
    to [prevState]. *)
Definition apply (rendered : IKanbanState) (a : Action)
    (prevState : IKanbanState) : IKanbanState :=
  match a with
  | SetCardList c l => setCardList c l prevState
  | AddCard t1 t2 l ti d => addCard t1 t2 l ti d prevState
  | UpdateCard c ti d => updateCard c ti d prevState
  | DeleteCard c => deleteCard c prevState
  | AddList t ti => addList rendered t ti prevState
  | ToggleTheme => toggleTheme prevState
  | SetSearchTerm term => setSearchTerm term prevState
  | ReorderCards src c l => reorderCards src c l prevState
  end.

(** One user event: the handler runs in the latest render, so the
    snapshot it closes over is the current state. *)
Definition dispatch (a : Action) (st : IKanbanState) : IKanbanState :=
  apply st a st.

(** A sequence of events, the store re-rendering after each. (While it
    renders, [BoardView] sorts [lists] by [order]; the actions never
    reorder the lists, and it is the actions that are followed here.) *)
Definition run (events : list Action) (st : IKanbanState) : IKanbanState :=
  foldl (fun s a => dispatch a s) st events.

(** [filteredCards] of [BoardView]; [toLowerCase] is the runtime's
    [String.prototype.toLowerCase]. *)
Definition matchesSearch (toLowerCase : string -> string)
    (searchTerm : string) (card : ICard.t) : bool :=
  Js.includes (toLowerCase (ICard.title card)) (toLowerCase searchTerm)
  || Js.includes (toLowerCase (ICard.description card))
       (toLowerCase searchTerm).

Definition filteredCards (toLowerCase : string -> string)
    (cards : list ICard.t) (searchTerm : string) : list ICard.t :=
  filter (fun card => matchesSearch toLowerCase searchTerm card = true) cards.

(** ** Arrays as heap objects

    [cards.filter(f)] allocates a new array and leaves its receiver as it
    was. To say so, the arrays of cards live in a heap, addressed by
    references. *)

Module Heap.

Abbreviation ref := nat.
Abbreviation t := (gmap nat (list ICard.t)).

(** [Array.prototype.filter]: the receiver is read, the result is a
    fresh array. [None]: the receiver is not an array of the heap. *)
Definition Array_filter (f : ICard.t -> bool) (this : ref) (h : t)
    : option (ref * t) :=
  match h !! this with
  | Some arr =>
      let r := fresh (dom h) in
      Some (r, <[r := filter (fun card => f card = true) arr]> h)
  | None => None
  end.

(** The declaration of [filteredCards] in [BoardView], on the heap. *)
Definition filteredCards (toLowerCase : string -> string) (cards : ref)
    (searchTerm : string) (h : t) : option (ref * t) :=
  Array_filter (matchesSearch toLowerCase searchTerm) cards h.

End Heap.

(** ** JSON.stringify and JSON.parse

    The runtime's two functions, on the values the store persists: null,
    booleans, integers, strings, arrays and objects. [stringify] writes
    the text without white space, members in insertion order. [parse]
    reads the texts [stringify] writes; it does not read white space,
    fractions, exponents, or escapes of characters beyond ASCII. *)

Module JSON.

Local Unset Elimination Schemes.
Inductive value : Type :=
| Null
| Bool (b : bool)
| Number (n : Z)
| Str (s : string)
| Array (elements : list value)
| Object (members : list (string * value)).
Local Set Elimination Schemes.

Definition text : Type := list ascii.

Definition dquote : ascii := "034"%char.
Definition backslash : ascii := "\"%char.

Definition hex_char (k : N) : ascii :=
  if (k <? 10)%N then ascii_of_N (48 + k) else ascii_of_N (87 + k).

(** One character of a string, as QuoteJSONString writes it. *)
Definition quote_char (c : ascii) : text :=
  let n := N_of_ascii c in
  if (n =? 34)%N then [backslash; dquote]
  else if (n =? 92)%N then [backslash; backslash]
  else if (n =? 8)%N then [backslash; "b"%char]
  else if (n =? 12)%N then [backslash; "f"%char]
  else if (n =? 10)%N then [backslash; "n"%char]
  else if (n =? 13)%N then [backslash; "r"%char]
  else if (n =? 9)%N then [backslash; "t"%char]
  else if (n <? 32)%N then
    [backslash; "u"%char; "0"%char; "0"%char;
     hex_char (n / 16); hex_char (n mod 16)]
  else [c].

Definition quote (s : string) : text :=
  dquote :: concat (quote_char <$> list_ascii_of_string s) ++ [dquote].

(** The pieces of an array or object, separated by commas. *)
Fixpoint commas (pieces : list text) : text :=
  match pieces with
  | [] => []
  | [p] => p
  | p :: ps => p ++ ","%char :: commas ps
  end.

Fixpoint emit (v : value) : text :=
  match v with
  | Null => list_ascii_of_string "null"
  | Bool true => list_ascii_of_string "true"
  | Bool false => list_ascii_of_string "false"
  | Number n => Js.Number_chars n
  | Str s => quote s
  | Array l => "["%char :: commas (map emit l) ++ ["]"%char]
  | Object m =>
      "{"%char ::
      commas (map (fun kv => quote (fst kv) ++ ":"%char :: emit (snd kv)) m)
      ++ ["}"%char]
  end.

Definition stringify (v : value) : string := string_of_list_ascii (emit v).

(** *** Reading *)

Definition is_digit (c : ascii) : bool :=
  let n := N_of_ascii c in ((48 <=? n) && (n <=? 57))%N.

Definition cons_digit (c : ascii) (d : uint) : uint :=
  match (N_of_ascii c - 48)%N with
  | 0%N => D0 d | 1%N => D1 d | 2%N => D2 d | 3%N => D3 d | 4%N => D4 d
  | 5%N => D5 d | 6%N => D6 d | 7%N => D7 d | 8%N => D8 d | _ => D9 d
  end.

(** The longest run of digits at the front of the text. *)
Fixpoint read_digits (s : text) : uint * text :=
  match s with
  | c :: s' =>
      if is_digit c
      then let '(d, r) := read_digits s' in (cons_digit c d, r)
      else (Nil, s)
  | [] => (Nil, [])
  end.

(** A JSON integer has a digit, and no leading zero before another. *)
Definition wellformed_digits (d : uint) : bool :=
  match d with
  | Nil => false
  | D0 Nil => true
  | D0 _ => false
  | _ => true
  end.

Definition read_number (s : text) : option (value * text) :=
  match s with
  | c :: s' =>
      if decide (c = "-"%char)
      then let '(d, r) := read_digits s' in
           if wellformed_digits d
           then Some (Number (Z.of_int (Neg d)), r) else None
      else let '(d, r) := read_digits s in
           if wellformed_digits d
           then Some (Number (Z.of_int (Pos d)), r) else None
  | [] => None
  end.

Definition hex_value (c : ascii) : option N :=
  let n := N_of_ascii c in
  if ((48 <=? n) && (n <=? 57))%N then Some (n - 48)%N
  else if ((97 <=? n) && (n <=? 102))%N then Some (n - 87)%N
  else if ((65 <=? n) && (n <=? 70))%N then Some (n - 55)%N
  else None.

(** The character of [\uXXXX], when it is an ASCII one. *)
Definition read_hex4 (a b c d : ascii) : option ascii :=
  match hex_value a, hex_value b, hex_value c, hex_value d with
  | Some x, Some y, Some z, Some w =>
      let n := (((x * 16 + y) * 16 + z) * 16 + w)%N in
      if (n <? 128)%N then Some (ascii_of_N n) else None
  | _, _, _, _ => None
  end.

Definition unescape (e : ascii) : option ascii :=
  if decide (e = dquote) then Some dquote
  else if decide (e = backslash) then Some backslash
  else if decide (e = "/"%char) then Some "/"%char
  else if decide (e = "b"%char) then Some (ascii_of_N 8)
  else if decide (e = "f"%char) then Some (ascii_of_N 12)
  else if decide (e = "n"%char) then Some (ascii_of_N 10)
  else if decide (e = "r"%char) then Some (ascii_of_N 13)
  else if decide (e = "t"%char) then Some (ascii_of_N 9)
  else None.

Definition push (c : ascii) (r : option (string * text))
    : option (string * text) :=
  match r with
  | Some (s, rest) => Some (String c s, rest)
  | None => None
  end.

(** The characters of a string after its opening quote, up to and
    including the closing one. *)
Fixpoint read_string (s : text) : option (string * text) :=
  match s with
  | [] => None
  | c :: s1 =>
      if decide (c = dquote) then Some (EmptyString, s1)
      else if decide (c = backslash) then
        match s1 with
        | [] => None
        | e :: s2 =>
            if decide (e = "u"%char) then
              match s2 with
              | h1 :: h2 :: h3 :: h4 :: s3 =>
                  match read_hex4 h1 h2 h3 h4 with
                  | Some c' => push c' (read_string s3)
                  | None => None
                  end
              | _ => None
              end
            else
              match unescape e with
              | Some c' => push c' (read_string s2)
              | None => None
              end
        end
      else if (N_of_ascii c <? 32)%N then None
      else push c (read_string s1)
  end.

(** [strip p s]: the text after the prefix [p] of [s]. *)
Fixpoint strip (p s : text) : option text :=
  match p, s with
  | [], _ => Some s
  | a :: p', b :: s' => if decide (a = b) then strip p' s' else None
  | _ :: _, [] => None
  end.

Fixpoint read_value (fuel : nat) (s : text) {struct fuel}
    : option (value * text) :=
  match fuel with
  | O => None
  | S fuel' =>
      match s with
      | [] => None
      | c :: r =>
          if decide (c = "n"%char) then
            match strip (list_ascii_of_string "ull") r with
            | Some r' => Some (Null, r') | None => None end
          else if decide (c = "t"%char) then
            match strip (list_ascii_of_string "rue") r with
            | Some r' => Some (Bool true, r') | None => None end
          else if decide (c = "f"%char) then
            match strip (list_ascii_of_string "alse") r with
            | Some r' => Some (Bool false, r') | None => None end
          else if decide (c = dquote) then
            match read_string r with
            | Some (str, r') => Some (Str str, r') | None => None end
          else if decide (c = "["%char) then
            match r with
            | [] => None
            | c' :: r' =>
                if decide (c' = "]"%char) then Some (Array [], r')
                else match read_elements fuel' r with
                     | Some (l, r'') => Some (Array l, r'')
                     | None => None
                     end
            end
          else if decide (c = "{"%char) then
            match r with
            | [] => None
            | c' :: r' =>
                if decide (c' = "}"%char) then Some (Object [], r')
                else match read_members fuel' r with
                     | Some (m, r'') => Some (Object m, r'')
                     | None => None
                     end
            end
          else read_number s
      end
  end

with read_elements (fuel : nat) (s : text) {struct fuel}
    : option (list value * text) :=
  match fuel with
  | O => None
  | S fuel' =>
      match read_value fuel' s with
      | Some (v, c :: r) =>
          if decide (c = ","%char) then
            match read_elements fuel' r with
            | Some (l, r') => Some (v :: l, r')
            | None => None
            end
          else if decide (c = "]"%char) then Some ([v], r)
          else None
      | _ => None
      end
  end

with read_members (fuel : nat) (s : text) {struct fuel}
    : option (list (string * value) * text) :=
  match fuel with
  | O => None
  | S fuel' =>
      match s with
      | q :: s1 =>
          if decide (q = dquote) then
            match read_string s1 with
            | Some (k, c1 :: s2) =>
                if decide (c1 = ":"%char) then
                  match read_value fuel' s2 with
                  | Some (v, c :: r) =>
                      if decide (c = ","%char) then
                        match read_members fuel' r with
                        | Some (m, r') => Some ((k, v) :: m, r')
                        | None => None
                        end
                      else if decide (c = "}"%char) then Some ([(k, v)], r)
                      else None
                  | _ => None
                  end
                else None
            | _ => None
            end
          else None
      | [] => None
      end
  end.

(** [JSON.parse]: one value, and nothing after it. [None] stands for
    the SyntaxError. *)
Definition parse (s : string) : option value :=
  let s' := list_ascii_of_string s in
  match read_value (S (length s')) s' with
  | Some (v, []) => Some v
  | _ => None
  end.

(** *** Measures for the proofs *)

(** The number of calls the reader makes for a value. *)
Fixpoint size (v : value) : nat :=
  match v with
  | Array l => S (list_sum (map (fun x => S (size x)) l))
  | Object m => S (list_sum (map (fun kv => S (size (snd kv))) m))
  | _ => 1%nat
  end.

(** What may follow a value in a text: anything but a digit, which
    would run into a number. *)
Definition ends_number (rest : text) : Prop :=
  match rest with
  | [] => True
  | c :: _ => is_digit c = false
  end.

(** What the reader is asked of a value: enough fuel, and a text after
    it that ends a number. *)
Definition reads_back (v : value) : Prop :=
  forall fuel rest,
    (size v <= fuel)%nat -> ends_number rest ->
    read_value fuel (emit v ++ rest) = Some (v, rest).

(** Induction on values, through the lists of arrays and objects. *)
Fixpoint value_ind (P : value -> Prop)
    (HNull : P Null) (HBool : forall b, P (Bool b))
    (HNumber : forall n, P (Number n)) (HStr : forall s, P (Str s))
    (HArray : forall l, Forall P l -> P (Array l))
    (HObject : forall m, Forall (fun kv => P (snd kv)) m -> P (Object m))
    (v : value) {struct v} : P v :=
  let go := value_ind P HNull HBool HNumber HStr HArray HObject in
  match v with
  | Null => HNull
  | Bool b => HBool b
  | Number n => HNumber n
  | Str s => HStr s
  | Array l =>
      HArray l
        ((fix all (l : list value) : Forall P l :=
            match l with
            | [] => @List.Forall_nil _ P
            | x :: l' => @List.Forall_cons _ P x l' (go x) (all l')
            end) l)
  | Object m =>
      HObject m
        ((fix all (m : list (string * value))
            : Forall (fun kv => P (snd kv)) m :=
            match m with
            | [] => @List.Forall_nil _ (fun kv => P (snd kv))
            | kv :: m' =>
                @List.Forall_cons _ (fun kv => P (snd kv)) kv m'
                  (go (snd kv)) (all m')
            end) m)
  end.

End JSON.

(** ** Persistence: [getInitialState] and the effect of [useKanbanStore] *)

(** [localStorage]: unavailable (every call throws), or a table of
    strings. Quota is not modelled. *)
Inductive Storage : Type :=
| Unavailable
| Available (items : gmap string string).

Definition getItem (key : string) (s : Storage)
    : Js.completion (option string) :=
  match s with
  | Unavailable => Js.Throw
  | Available items => Js.Normal (items !! key)
  end.

Definition setItem (key value : string) (s : Storage)
    : Js.completion Storage :=
  match s with
  | Unavailable => Js.Throw
  | Available items => Js.Normal (Available (<[key := value]> items))
  end.

(** What the page keeps outside the store. *)
Record Browser : Type := mkBrowser {
  localStorage : Storage;
  documentClassName : string;
}.

(** The state objects as JavaScript values: the keys in the order the
    object literals of the source give them (a spread keeps it). *)
Definition js_of_theme (t : Theme) : string :=
  match t with light => "light" | dark => "dark" end.

Definition js_of_list (l : IList.t) : JSON.value :=
  JSON.Object
    [ ("id", JSON.Str (IList.id l));
      ("title", JSON.Str (IList.title l));
      ("colorVar", JSON.Str (IList.colorVar l));
      ("order", JSON.Number (IList.order l)) ].

Definition js_of_card (c : ICard.t) : JSON.value :=
  JSON.Object
    [ ("id", JSON.Str (ICard.id c));
      ("listId", JSON.Str (ICard.listId c));
      ("title", JSON.Str (ICard.title c));
      ("description", JSON.Str (ICard.description c));
      ("createdAt", JSON.Number (ICard.createdAt c)) ].

Definition js_of_state (st : IKanbanState) : JSON.value :=
  JSON.Object
    [ ("lists", JSON.Array (js_of_list <$> lists st));
      ("cards", JSON.Array (js_of_card <$> cards st));
      ("theme", JSON.Str (js_of_theme (theme st)));
      ("searchTerm", JSON.Str (searchTerm st)) ].

(** [getInitialState]. The cast [as IKanbanState] checks nothing, so the
    result is whatever value the stored text denotes. [JSON_parse] is
    the runtime's parser ([None]: it threw), [now] the clock readings of
    [INITIAL_CARDS]. An empty stored string is falsy. *)
Definition getInitialState (JSON_parse : string -> option JSON.value)
    (now : nat -> Z) (storage : Storage) : JSON.value :=
  let fallback := js_of_state (seedState now) in
  match getItem STORAGE_KEY storage with
  | Js.Normal (Some storedState) =>
      if decide (storedState = "") then fallback
      else match JSON_parse storedState with
           | Some v => v
           | None => fallback
           end
  | Js.Normal None => fallback
  | Js.Throw => fallback
  end.

(** The effect that runs after every change of [state]. *)
Definition persistEffect (state : IKanbanState) (b : Browser)
    : Js.completion Browser :=
  match setItem STORAGE_KEY (JSON.stringify (js_of_state state))
          (localStorage b) with
  | Js.Normal storage' =>
      Js.Normal {| localStorage := storage';
                   documentClassName := js_of_theme (theme state) |}
  | Js.Throw => Js.Throw
  end.

(** ** Vocabulary of the specification *)

(** Every list id is the id of one list, every card id of one card. *)
Definition ids_unique (st : IKanbanState) : Prop :=
  NoDup (IList.id <$> lists st) /\ NoDup (ICard.id <$> cards st).

(** The clock readings a sequence of events turns into card ids, and into
    list ids. *)
Definition card_id_clock (events : list Action) : list Z :=
  omap (fun a => match a with
                 | AddCard idNow _ _ _ _ => Some idNow
                 | _ => None
                 end) events.

Definition list_id_clock (events : list Action) : list Z :=
  omap (fun a => match a with
                 | AddList now _ => Some now
                 | _ => None
                 end) events.

(** No two creations of one kind read the same instant, and no reading
    spells the number of a seed id. *)
Definition clock_fresh (events : list Action) : Prop :=
  NoDup (card_id_clock events) /\
  NoDup (list_id_clock events) /\
  Forall (fun n => n ∉ [1; 2; 3; 4]) (card_id_clock events) /\
  Forall (fun n => n ∉ [1; 2; 3]) (list_id_clock events).

Global Instance clock_fresh_dec events : Decision (clock_fresh events).
Proof. unfold clock_fresh. apply _. Defined.

(** [p] is a substring of [s]. *)
Definition substring_of (p s : string) : Prop :=
  exists pre post, s = pre +:+ p +:+ post.

(** [card'] is [card] with new text, and the same id, list and creation
    instant. *)
Definition retitled (newTitle newDescription : string)
    (card card' : ICard.t) : Prop :=
  ICard.id card' = ICard.id card /\
  ICard.listId card' = ICard.listId card /\
  ICard.createdAt card' = ICard.createdAt card /\
  ICard.title card' = newTitle /\
  ICard.description card' = newDescription.

(** ** More of the runtime: trimming, truthiness and sorting *)

Module JsString.

Definition byte (n : N) : ascii := ascii_of_N n.

(** The characters that [trim] removes, each as its UTF-8 bytes: the
    WhiteSpace of ECMAScript (U+0009, U+000B, U+000C, U+FEFF and the space
    separators U+0020, U+00A0, U+1680, U+2000 to U+200A, U+202F, U+205F,
    U+3000) and its LineTerminator (U+000A, U+000D, U+2028, U+2029). *)
Definition white_space : list (list ascii) :=
  [ [byte 9]; [byte 10]; [byte 11]; [byte 12]; [byte 13]; [byte 32];
    [byte 194; byte 160];
    [byte 225; byte 154; byte 128];
    [byte 226; byte 128; byte 128]; [byte 226; byte 128; byte 129];
    [byte 226; byte 128; byte 130]; [byte 226; byte 128; byte 131];
    [byte 226; byte 128; byte 132]; [byte 226; byte 128; byte 133];
    [byte 226; byte 128; byte 134]; [byte 226; byte 128; byte 135];
    [byte 226; byte 128; byte 136]; [byte 226; byte 128; byte 137];
    [byte 226; byte 128; byte 138];
    [byte 226; byte 128; byte 168]; [byte 226; byte 128; byte 169];
    [byte 226; byte 128; byte 175];
    [byte 226; byte 129; byte 159];
    [byte 227; byte 128; byte 128];
    [byte 239; byte 187; byte 191] ].

(** The white space character a text starts with, if it starts with
    one. *)
Definition white_space_at_start (s : list ascii) : option (list ascii) :=
  find (fun e => bool_decide (e `prefix_of` s)) white_space.

(** [trimStart], with at most [fuel] characters removed. *)
Fixpoint trimStart_from (fuel : nat) (s : list ascii) : list ascii :=
  match fuel with
  | O => s
  | S fuel' =>
      match white_space_at_start s with
      | Some e => trimStart_from fuel' (drop (length e) s)
      | None => s
      end
  end.

Definition trimStart (s : list ascii) : list ascii :=
  trimStart_from (length s) s.

(** The text is white space from start to end. *)
Definition only_white_space_b (s : list ascii) : bool :=
  bool_decide (trimStart s = []).

(** [trimEnd]: the text up to where only white space follows. *)
Fixpoint trimEnd (s : list ascii) : list ascii :=
  match s with
  | [] => []
  | c :: s' => if only_white_space_b s then [] else c :: trimEnd s'
  end.

(** [String.prototype.trim] *)
Definition trim (s : string) : string :=
  string_of_list_ascii (trimEnd (trimStart (list_ascii_of_string s))).

(** A string in a condition: true unless it is empty. *)
Definition truthy (s : string) : bool :=
  match s with
  | EmptyString => false
  | String _ _ => true
  end.

End JsString.

Module JsArray.

(** [Array.prototype.sort(compareFn)]. The sort is stable, and under a
    comparator that orders by a number (as both comparators of the source
    do) a stable sort has one possible result: the one insertion gives.
    [x] goes before [y] when [compareFn x y] is not positive. *)
Fixpoint insert {A} (compareFn : A -> A -> Z) (x : A) (l : list A)
    : list A :=
  match l with
  | [] => [x]
  | y :: l' =>
      if (compareFn x y <=? 0)%Z then x :: l
      else y :: insert compareFn x l'
  end.

Definition sort {A} (compareFn : A -> A -> Z) (l : list A) : list A :=
  foldr (insert compareFn) [] l.

End JsArray.

(** ** Sections 4 and 5 of the source: the handlers of the components

    Calls that only style an element (classList, preventDefault) are left
    out; what a handler does to the store and to the state of its
    component is kept. *)

(** The payload of a drag gesture. [getData] of a format never set is the
    empty string. *)
Record DataTransfer : Type := mkDataTransfer {
  dragData : gmap string string;
  effectAllowed : string;
  dropEffect : string;
}.

Definition setData (format data : string) (dt : DataTransfer) : DataTransfer :=
  {| dragData := <[format := data]> (dragData dt);
     effectAllowed := effectAllowed dt;
     dropEffect := dropEffect dt |}.

Definition getData (format : string) (dt : DataTransfer) : string :=
  default "" (dragData dt !! format).

Module CardComponent.

Definition handleDragStart (card : ICard.t) (dt : DataTransfer)
    : DataTransfer :=
  let dt1 := setData "cardId" (ICard.id card) dt in
  {| dragData := dragData dt1;
     effectAllowed := "move";
     dropEffect := dropEffect dt1 |}.

(** The click on the trash button: [onDelete(card.id)]. *)
Definition handleDeleteClick (card : ICard.t) (st : IKanbanState)
    : IKanbanState :=
  deleteCard (ICard.id card) st.

End CardComponent.

Module CardModal.

(** The two [useState] cells of the modal, initialised from the card. *)
Record State : Type := mkState {
  title : string;
  description : string;
}.

Definition initial (card : ICard.t) : State :=
  {| title := ICard.title card; description := ICard.description card |}.

(** [handleSubmit]: [onSave(card.id, title, description)], then
    [onClose()], which the caller gets as the [false] of [isModalOpen]. *)
Definition handleSubmit (card : ICard.t) (m : State) (st : IKanbanState)
    : IKanbanState * bool :=
  (updateCard (ICard.id card) (title m) (description m) st, false).

(** The Excluir button: [onDelete(card.id)], then [onClose()]. *)
Definition handleDelete (card : ICard.t) (st : IKanbanState)
    : IKanbanState * bool :=
  (deleteCard (ICard.id card) st, false).

End CardModal.

Module ListView.

Record State : Type := mkState {
  newCardTitle : string;
  isAdding : bool;
}.

(** [handleAddCard]; [idNow] and [createdNow] are the clock readings of
    the [addCard] it may call. *)
Definition handleAddCard (list : IList.t) (idNow createdNow : Z)
    (ui : State) (st : IKanbanState) : State * IKanbanState :=
  if JsString.truthy (JsString.trim (newCardTitle ui))
  then ({| newCardTitle := ""; isAdding := false |},
        addCard idNow createdNow (IList.id list)
          (JsString.trim (newCardTitle ui)) "Adicione uma descrição aqui." st)
  else (ui, st).

Definition handleDrop (list : IList.t) (dt : DataTransfer)
    (st : IKanbanState) : IKanbanState :=
  let cardId := getData "cardId" dt in
  if JsString.truthy cardId
  then reorderCards None cardId (IList.id list) st
  else st.

(** The comparator of [cards.sort] in the list: newest first. *)
Definition compareNewestFirst (a b : ICard.t) : Z :=
  ICard.createdAt b - ICard.createdAt a.

(** The cards the list renders, in order, from its [cards] prop. *)
Definition renderedCards (cards : list ICard.t) : list ICard.t :=
  JsArray.sort compareNewestFirst cards.

End ListView.

Module BoardView.

Record State : Type := mkState {
  isModalOpen : bool;
  selectedCard : option ICard.t;
  newListTitle : string;
}.

Definition handleEditCard (card : ICard.t) (ui : State) : State :=
  {| isModalOpen := true;
     selectedCard := Some card;
     newListTitle := newListTitle ui |}.

(** The modal is rendered when [isModalOpen && selectedCard]. *)
Definition modalCard (ui : State) : option ICard.t :=
  if isModalOpen ui then selectedCard ui else None.

Definition closeModal (ui : State) : State :=
  {| isModalOpen := false;
     selectedCard := selectedCard ui;
     newListTitle := newListTitle ui |}.

Definition handleSearchChange (value : string) (st : IKanbanState)
    : IKanbanState :=
  setSearchTerm value st.

(** [handleAddList], called in the render of [st]. *)
Definition handleAddList (now : Z) (ui : State) (st : IKanbanState)
    : State * IKanbanState :=
  if JsString.truthy (JsString.trim (newListTitle ui))
  then ({| isModalOpen := isModalOpen ui;
           selectedCard := selectedCard ui;
           newListTitle := "" |},
        addList st now (JsString.trim (newListTitle ui)) st)
  else (ui, st).

(** The comparator of [lists.sort] in the board. *)
Definition compareOrder (a b : IList.t) : Z :=
  IList.order a - IList.order b.

(** The [cards] prop the board gives the view of [list]. *)
Definition cardsOfList (toLowerCase : string -> string)
    (st : IKanbanState) (list : IList.t) : Datatypes.list ICard.t :=
  filter (fun card => ICard.listId card = IList.id list)
    (filteredCards toLowerCase (cards st) (searchTerm st)).

(** The columns of the board, left to right: each list with the cards
    its view renders, top to bottom. *)
Definition columns (toLowerCase : string -> string) (st : IKanbanState)
    : list (IList.t * list ICard.t) :=
  (fun list =>
     (list, ListView.renderedCards (cardsOfList toLowerCase st list)))
    <$> JsArray.sort compareOrder (lists st).

(** [lists.sort] sorts the array of the state itself: what a render of
    the board leaves in the store. *)
Definition afterRender (st : IKanbanState) : IKanbanState :=
  {| lists := JsArray.sort compareOrder (lists st);
     cards := cards st;
     theme := theme st;
     searchTerm := searchTerm st |}.

End BoardView.

(** ** The user's gestures

    What a user can do on the board of a state, with the lists and cards
    the gesture touches. A gesture on a list needs that list on the
    board. *)
Inductive Gesture : Type :=
| SubmitNewCard (list : IList.t) (typed : string) (idNow createdNow : Z)
| DragAndDrop (card : ICard.t) (list : IList.t)
| ClickDelete (card : ICard.t)
| SaveModal (card : ICard.t) (title description : string)
| ClickAddList (typed : string) (now : Z)
| TypeSearch (value : string)
| ClickToggleTheme.

(** The state after a gesture; [None] when the list is not on the
    board. *)
Definition perform (g : Gesture) (st : IKanbanState) : option IKanbanState :=
  match g with
  | SubmitNewCard list typed idNow createdNow =>
      if decide (list ∈ lists st)
      then Some (ListView.handleAddCard list idNow createdNow
                   (ListView.mkState typed true) st).2
      else None
  | DragAndDrop card list =>
      if decide (list ∈ lists st)
      then Some (ListView.handleDrop list
                   (CardComponent.handleDragStart card
                      (mkDataTransfer ∅ "" "")) st)
      else None
  | ClickDelete card => Some (CardComponent.handleDeleteClick card st)
  | SaveModal card title description =>
      Some (CardModal.handleSubmit card
              (CardModal.mkState title description) st).1
  | ClickAddList typed now =>
      Some (BoardView.handleAddList now
              (BoardView.mkState false None typed) st).2
  | TypeSearch value => Some (BoardView.handleSearchChange value st)
  | ClickToggleTheme => Some (toggleTheme st)
  end.

Fixpoint performAll (gs : list Gesture) (st : IKanbanState)
    : option IKanbanState :=
  match gs with
  | [] => Some st
  | g :: gs' =>
      match perform g st with
      | Some st' => performAll gs' st'
      | None => None
      end
  end.

(** ** The store with its persistence effect

    A session of [App] with [useKanbanStore]: the effect runs after the
    first render and after the render that follows every change of the
    state; a throw of the effect ends the session. *)
Inductive Page : Type := board | settings.

(** What the render of [App] on a page leaves in the store: on the board
    page [BoardView] renders and sorts [lists] in place. *)
Definition renderApp (page : Page) (st : IKanbanState) : IKanbanState :=
  match page with
  | board => BoardView.afterRender st
  | settings => st
  end.

(** What happens in a session: an action of the store, or
    [setCurrentPage]. *)
Inductive SessionEvent : Type :=
| Act (a : Action)
| SetCurrentPage (page : Page).

(** The page, the state of the store, and the browser. *)
Definition Session : Type := Page * IKanbanState * Browser.

(** An action changes the state, [App] renders, the effect runs. A change
    of page renders and runs no effect: the state is the same object. *)
Definition sessionStep (e : SessionEvent) (w : Session)
    : Js.completion Session :=
  let '(page, st, b) := w in
  match e with
  | Act a =>
      let st' := renderApp page (dispatch a st) in
      match persistEffect st' b with
      | Js.Normal b' => Js.Normal (page, st', b')
      | Js.Throw => Js.Throw
      end
  | SetCurrentPage page' => Js.Normal (page', renderApp page' st, b)
  end.

Fixpoint sessionSteps (events : list SessionEvent) (w : Session)
    : Js.completion Session :=
  match events with
  | [] => Js.Normal w
  | e :: events' =>
      match sessionStep e w with
      | Js.Normal w' => sessionSteps events' w'
      | Js.Throw => Js.Throw
      end
  end.

(** The session from the first render, which is of the board page. *)
Definition session (st0 : IKanbanState) (events : list SessionEvent)
    (b : Browser) : Js.completion Session :=
  let st1 := renderApp board st0 in
  match persistEffect st1 b with
  | Js.Normal b1 => sessionSteps events (board, st1, b1)
  | Js.Throw => Js.Throw
  end.

(** The actions a page offers: the settings page has the theme button,
    the board page everything else. *)
Definition offered (page : Page) (a : Action) : bool :=
  match page, a with
  | settings, ToggleTheme => true
  | settings, _ => false
  | board, ToggleTheme => false
  | board, _ => true
  end.

(** Every action of the events is one its page offers. *)
Fixpoint routed (page : Page) (events : list SessionEvent) : bool :=
  match events with
  | [] => true
  | Act a :: events' => offered page a && routed page events'
  | SetCurrentPage page' :: events' => routed page' events'
  end.

(** The actions among the events, and the page the events end on. *)
Definition actions (events : list SessionEvent) : list Action :=
  omap (fun e => match e with Act a => Some a | SetCurrentPage _ => None end)
    events.

Definition pageAfter (page : Page) (events : list SessionEvent) : Page :=
  foldl (fun p e => match e with Act _ => p | SetCurrentPage p' => p' end)
    page events.

(** The run in which the board renders after every action. *)
Definition renderedRun (events : list Action) (st : IKanbanState)
    : IKanbanState :=
  foldl (fun s a => BoardView.afterRender (dispatch a s)) st events.

(** Store actions, each with the render snapshot its callback closed
    over, applied in turn. *)
Definition applyAll (calls : list (IKanbanState * Action))
    (st : IKanbanState) : IKanbanState :=
  foldl (fun s call => apply call.1 call.2 s) st calls.

(** ** More vocabulary *)

(** Every card is on a list of the board. *)
Definition cards_on_lists (st : IKanbanState) : Prop :=
  forall card, card ∈ cards st ->
    ICard.listId card ∈ IList.id <$> lists st.

(** The numbers [0], [1], ... below [n], as the orders of [n] lists. *)
Definition orders_upto (n : nat) : list Z := Z.of_nat <$> seq 0 n.

(** The text starts, or ends, with a white space character. *)
Definition starts_with_white_space (s : list ascii) : Prop :=
  Exists (fun e => e `prefix_of` s) JsString.white_space.

Definition ends_with_white_space (s : list ascii) : Prop :=
  Exists (fun e => e `suffix_of` s) JsString.white_space.

(** The text is made of white space characters, or empty. *)
Definition only_white_space (s : list ascii) : Prop :=
  exists pieces,
    Forall (fun e => e ∈ JsString.white_space) pieces /\ s = concat pieces.

(** A title as the forms give it: not empty, no white space around. *)
Definition trimmed_title (s : string) : Prop :=
  s <> "" /\
  ~ starts_with_white_space (list_ascii_of_string s) /\
  ~ ends_with_white_space (list_ascii_of_string s).

(** [core] is [typed] without the white space around it. *)
Definition trimmed_from (typed core : string) : Prop :=
  trimmed_title core /\
  exists before after,
    only_white_space before /\ only_white_space after /\
    list_ascii_of_string typed
    = before ++ list_ascii_of_string core ++ after.

(** A lower-casing that does on ASCII text what the runtime's does. *)
Definition lowers_ascii (toLowerCase : string -> string) : Prop :=
  forall s, Js.ascii_only s -> toLowerCase s = Js.asciiLowerCase s.

(** The same character when case is ignored: equal, or a letter of A to
    Z and the same letter of a to z. *)
Definition same_char_ignoring_case (a b : ascii) : Prop :=
  a = b \/
  (let x := N_of_ascii a in let y := N_of_ascii b in
   (65 <= x <= 90 /\ y = x + 32) \/ (65 <= y <= 90 /\ x = y + 32))%N.

Definition same_ignoring_case (a b : string) : Prop :=
  Forall2 same_char_ignoring_case
    (list_ascii_of_string a) (list_ascii_of_string b).


(** [l] ascends, or stays, under the number [key]. *)
Definition ascending {A} (key : A -> Z) (l : list A) : Prop :=
  forall i j x y, (i < j)%nat -> l !! i = Some x -> l !! j = Some y ->
    key x <= key y.

(** A gesture is nothing, or one action of the store. *)
Inductive gesture_effect (st : IKanbanState) : IKanbanState -> Prop :=
| effect_none : gesture_effect st st
| effect_addCard list typed idNow createdNow :
    list ∈ lists st -> JsString.trim typed <> "" ->
    gesture_effect st
      (addCard idNow createdNow (IList.id list) (JsString.trim typed)
         "Adicione uma descrição aqui." st)
| effect_move card list :
    list ∈ lists st -> ICard.id card <> "" ->
    gesture_effect st (setCardList (ICard.id card) (IList.id list) st)
| effect_delete cardId : gesture_effect st (deleteCard cardId st)
| effect_update cardId t d : gesture_effect st (updateCard cardId t d st)
| effect_addList typed now :
    JsString.trim typed <> "" ->
    gesture_effect st (addList st now (JsString.trim typed) st)
| effect_search value : gesture_effect st (setSearchTerm value st)
| effect_theme : gesture_effect st (toggleTheme st).

(** * Verification *)

(** ** The card actions, card by card *)

Section CardActions.

Implicit Types (st : IKanbanState) (card : ICard.t) (cardId : string).

Lemma state_eta st :
  {| lists := lists st; cards := cards st; theme := theme st;
     searchTerm := searchTerm st |} = st.
Proof. by destruct st. Qed.

Lemma state_with_cards st cs :
  cs = cards st ->
  {| lists := lists st; cards := cs; theme := theme st;
     searchTerm := searchTerm st |} = st.
Proof. intros ->. apply state_eta. Qed.

(** A map that changes no element of the list changes nothing. *)
Lemma fmap_fixed {A} (f : A -> A) (l : list A) :
  (forall x, x ∈ l -> f x = x) -> f <$> l = l.
Proof.
  intros Hf. induction l as [|x l IH]; [done|].
  rewrite fmap_cons, Hf by left.
  f_equal. apply IH. intros y Hy. apply Hf. by right.
Qed.

Lemma filter_all {A} (P : A -> Prop) `{!forall x, Decision (P x)}
    (l : list A) :
  (forall x, x ∈ l -> P x) -> filter P l = l.
Proof.
  intros HP. induction l as [|x l IH]; [done|].
  rewrite filter_cons_True by (apply HP; left).
  f_equal. apply IH. intros y Hy. apply HP. by right.
Qed.

Lemma setCardList_card_ids cardId newListId st :
  ICard.id <$> cards (setCardList cardId newListId st)
  = ICard.id <$> cards st.
Proof.
  cbn. rewrite <- list_fmap_compose. apply list_fmap_ext.
  intros i card _. cbn. by case_decide.
Qed.

Lemma updateCard_card_ids cardId t d st :
  ICard.id <$> cards (updateCard cardId t d st) = ICard.id <$> cards st.
Proof.
  cbn. rewrite <- list_fmap_compose. apply list_fmap_ext.
  intros i card _. cbn. by case_decide.
Qed.

Lemma setCardList_unmatched cardId newListId st :
  (forall card, card ∈ cards st -> ICard.id card <> cardId) ->
  setCardList cardId newListId st = st.
Proof.
  intros Hno. apply state_with_cards, fmap_fixed.
  intros card Hin. case_decide; [|done]. by destruct (Hno card Hin).
Qed.

Lemma updateCard_unmatched cardId t d st :
  (forall card, card ∈ cards st -> ICard.id card <> cardId) ->
  updateCard cardId t d st = st.
Proof.
  intros Hno. apply state_with_cards, fmap_fixed.
  intros card Hin. case_decide; [|done]. by destruct (Hno card Hin).
Qed.

Lemma deleteCard_unmatched cardId st :
  (forall card, card ∈ cards st -> ICard.id card <> cardId) ->
  deleteCard cardId st = st.
Proof. intros Hno. by apply state_with_cards, filter_all. Qed.

Lemma setCardList_same_list cardId listId st :
  (forall card, card ∈ cards st -> ICard.id card = cardId ->
                ICard.listId card = listId) ->
  setCardList cardId listId st = st.
Proof.
  intros Hin. apply state_with_cards, fmap_fixed.
  intros card Hc. case_decide as Hid; [|done].
  rewrite <- (Hin card Hc Hid). by destruct card.
Qed.

Lemma setCardList_twice cardId listId st :
  setCardList cardId listId (setCardList cardId listId st)
  = setCardList cardId listId st.
Proof.
  apply setCardList_same_list. intros card Hc.
  cbn in Hc. apply list_elem_of_fmap in Hc as (c0 & -> & _).
  by case_decide.
Qed.

End CardActions.

(** ** The generated ids: one numeral per clock reading *)

Section Numerals.

Lemma uint_chars_inj d d' : Js.uint_chars d = Js.uint_chars d' -> d = d'.
Proof.
  revert d'.
  induction d as [|d IH|d IH|d IH|d IH|d IH|d IH|d IH|d IH|d IH|d IH];
    intros [|e|e|e|e|e|e|e|e|e|e] H; cbn in H;
    first [ done | discriminate H
          | injection H as H; f_equal; by apply IH ].
Qed.

Lemma uint_chars_head_not_minus d t : Js.uint_chars d <> "-"%char :: t.
Proof. by destruct d. Qed.

Lemma int_chars_inj i i' : Js.int_chars i = Js.int_chars i' -> i = i'.
Proof.
  destruct i as [u|u], i' as [u'|u']; cbn; intros H.
  - f_equal. by apply uint_chars_inj.
  - by destruct (uint_chars_head_not_minus u (Js.uint_chars u')).
  - by destruct (uint_chars_head_not_minus u' (Js.uint_chars u)).
  - injection H as H. f_equal. by apply uint_chars_inj.
Qed.

Lemma string_of_list_ascii_inj l l' :
  string_of_list_ascii l = string_of_list_ascii l' -> l = l'.
Proof.
  intros H.
  rewrite <- (list_ascii_of_string_of_list_ascii l),
          <- (list_ascii_of_string_of_list_ascii l').
  by rewrite H.
Qed.

Lemma Number_toString_inj n m :
  Js.Number_toString n = Js.Number_toString m -> n = m.
Proof.
  intros H. apply DecimalZ.to_int_inj, int_chars_inj.
  by apply string_of_list_ascii_inj.
Qed.

Lemma prefixed_numeral_inj (p : string) n m :
  p +:+ Js.Number_toString n = p +:+ Js.Number_toString m -> n = m.
Proof. intros H. apply Number_toString_inj. by simplify_eq. Qed.

End Numerals.

(** ** Uniqueness of ids along a run *)

Section Ids.

Implicit Types (st : IKanbanState) (a : Action) (events : list Action).

Lemma run_cons a events st : run (a :: events) st = run events (dispatch a st).
Proof. done. Qed.

(** Only [addList] touches the lists, and it appends one. *)
Lemma apply_lists rendered a st :
  lists (apply rendered a st) =
  match a with
  | AddList now title =>
      lists st ++
      [IList.mk ("list-" +:+ Js.Number_toString now) title
         "--color-list-yellow" (Z.of_nat (length (lists rendered)))]
  | _ => lists st
  end.
Proof. by destruct a. Qed.

(** Only [addCard] makes a card id; the other actions keep the ids or
    drop some. *)
Lemma apply_card_ids rendered a st :
  match a with
  | AddCard idNow _ _ _ _ =>
      ICard.id <$> cards (apply rendered a st) =
      (ICard.id <$> cards st) ++ ["card-" +:+ Js.Number_toString idNow]
  | _ =>
      (ICard.id <$> cards (apply rendered a st))
        `sublist_of` (ICard.id <$> cards st)
  end.
Proof.
  destruct a; cbn [apply reorderCards].
  - by rewrite setCardList_card_ids.
  - cbn. by rewrite fmap_app.
  - by rewrite updateCard_card_ids.
  - cbn. apply fmap_sublist, sublist_filter.
  - done.
  - done.
  - done.
  - by rewrite setCardList_card_ids.
Qed.

Lemma snoc_fresh {A} (l : list A) x :
  NoDup l -> x ∉ l -> NoDup (l ++ [x]).
Proof.
  intros Hl Hx. apply NoDup_app. split_and!; [done| |apply NoDup_singleton].
  intros y Hy ->%list_elem_of_singleton. done.
Qed.

Lemma run_ids_unique events : forall st,
  ids_unique st ->
  NoDup (card_id_clock events) ->
  NoDup (list_id_clock events) ->
  (forall n, n ∈ card_id_clock events ->
             "card-" +:+ Js.Number_toString n ∉ ICard.id <$> cards st) ->
  (forall n, n ∈ list_id_clock events ->
             "list-" +:+ Js.Number_toString n ∉ IList.id <$> lists st) ->
  ids_unique (run events st).
Proof.
  induction events as [|a events IH]; intros st [HL HC] Hcc Hlc Hc Hl;
    [done|].
  rewrite run_cons. unfold dispatch.
  pose proof (apply_lists st a st) as Els.
  pose proof (apply_card_ids st a st) as Ecs.
  destruct a as [c l|t1 t2 l ti d|c ti d|c|t ti| |term|src c l];
    cbn [card_id_clock list_id_clock omap list_omap] in Hcc, Hlc, Hc, Hl;
    fold (card_id_clock events) in Hcc, Hc;
    fold (list_id_clock events) in Hlc, Hl.
  all: try (apply IH; [split| | | |]; rewrite ?Els; try done;
            first [ exact (sublist_NoDup _ _ HC Ecs)
                  | intros n Hn Hin; eapply Hc;
                    [done|by eapply elem_of_sublist] ]).
  - (* addCard *)
    apply NoDup_cons in Hcc as [Hfresh Hcc].
    apply IH; [split| | | |]; rewrite ?Els, ?Ecs; try done.
    + apply snoc_fresh; [done|]. apply Hc. by left.
    + intros n Hn. apply not_elem_of_app. split; [apply Hc; by right|].
      intros ->%list_elem_of_singleton%prefixed_numeral_inj. done.
  - (* addList *)
    apply NoDup_cons in Hlc as [Hfresh Hlc].
    apply IH; [split| | | |]; rewrite ?Els; try done.
    + rewrite fmap_app. apply snoc_fresh; [done|]. apply Hl. by left.
    + intros n Hn. rewrite fmap_app. apply not_elem_of_app.
      split; [apply Hl; by right|].
      intros ->%list_elem_of_singleton%prefixed_numeral_inj. done.
Qed.

End Ids.

(** ** The projection of the search *)

Section Search.

Lemma startsWith_spec s p :
  Js.startsWith s p = true <-> exists post, s = p +:+ post.
Proof.
  revert s. induction p as [|a p IH]; intros s; cbn.
  - split; [intros _; by exists s|done].
  - destruct s as [|b s]; cbn.
    + split; [done|]. by intros [post ?].
    + rewrite andb_true_iff, bool_decide_eq_true, IH. split.
      * intros [-> [post ->]]. by exists post.
      * intros [post H]. injection H as -> ->. eauto.
Qed.

Lemma includes_spec s p : Js.includes s p = true <-> substring_of p s.
Proof.
  unfold substring_of. split.
  - induction s as [|c s IH]; cbn; rewrite orb_true_iff.
    + intros [H|?]; [|done]. apply startsWith_spec in H as [post ->].
      by exists "", post.
    + intros [H|H].
      * apply startsWith_spec in H as [post H]. by exists "", post.
      * destruct (IH H) as (pre & post & ->). by exists (String c pre), post.
  - intros (pre & post & ->). induction pre as [|c pre IH].
    + destruct (p +:+ post) eqn:E; cbn; apply orb_true_iff; left;
        apply startsWith_spec; exists post; by rewrite <- E.
    + cbn. apply orb_true_iff. by right.
Qed.



Lemma matchesSearch_spec (toLowerCase : string -> string) term card :
  matchesSearch toLowerCase term card = true <->
  substring_of (toLowerCase term) (toLowerCase (ICard.title card)) \/
  substring_of (toLowerCase term) (toLowerCase (ICard.description card)).
Proof.
  unfold matchesSearch. by rewrite orb_true_iff, !includes_spec.
Qed.


End Search.

(** ** The lists along a run *)

Section Lists.

Lemma dispatch_lists_prefix a st :
  lists st `prefix_of` lists (dispatch a st).
Proof.
  unfold dispatch. rewrite apply_lists.
  destruct a; try done. by apply prefix_app_r.
Qed.

Lemma run_lists_prefix events : forall st,
  lists st `prefix_of` lists (run events st).
Proof.
  induction events as [|a events IH]; intros st; [done|].
  rewrite run_cons. etrans; [apply dispatch_lists_prefix|apply IH].
Qed.

(** The [order] of a new list is the length the render saw, whatever
    state the update is applied to. *)
Lemma addList_order_from_render state now title prevState :
  IList.order <$> lists (addList state now title prevState)
  = (IList.order <$> lists prevState) ++ [Z.of_nat (length (lists state))].
Proof. cbn. by rewrite fmap_app. Qed.

End Lists.

(** ** Reading back what [JSON.stringify] writes *)

Section JsonNumbers.

Import JSON.

Lemma read_digits_chars d rest :
  ends_number rest -> read_digits (Js.uint_chars d ++ rest) = (d, rest).
Proof.
  intros Hrest.
  induction d as [|d IH|d IH|d IH|d IH|d IH|d IH|d IH|d IH|d IH|d IH];
    [ destruct rest as [|c rest]; cbn in *; [done|by rewrite Hrest] | .. ];
    cbn [Js.uint_chars app read_digits];
    match goal with
    | |- context [is_digit (Js.digit_char ?k)] =>
        change (is_digit (Js.digit_char k)) with true
    end;
    cbn iota; by rewrite IH.
Qed.

Lemma wellformed_unorm d : wellformed_digits (unorm d) = true.
Proof. induction d; cbn; try done. Qed.

Lemma to_uint_wellformed p : wellformed_digits (Pos.to_uint p) = true.
Proof.
  rewrite <- (wellformed_unorm (Pos.to_uint p)). f_equal.
  rewrite <- DecimalPos.Unsigned.to_of, DecimalPos.Unsigned.of_to. done.
Qed.

Lemma to_int_wellformed n :
  match Z.to_int n with
  | Pos u | Neg u => wellformed_digits u = true
  end.
Proof. destruct n; cbn; [done| |]; apply to_uint_wellformed. Qed.

Lemma read_number_unsigned u rest :
  wellformed_digits u = true -> ends_number rest ->
  read_number (Js.uint_chars u ++ rest)
  = Some (Number (Z.of_int (Pos u)), rest).
Proof.
  intros Hu Hrest. pose proof (read_digits_chars u rest Hrest) as Hd.
  destruct u; [done|..]; cbn [Js.uint_chars app] in *; unfold read_number;
    rewrite decide_False by done; by rewrite Hd, Hu.
Qed.

Lemma read_number_chars n rest :
  ends_number rest ->
  read_number (Js.Number_chars n ++ rest) = Some (Number n, rest).
Proof.
  intros Hrest. unfold Js.Number_chars.
  pose proof (to_int_wellformed n) as Hw.
  pose proof (DecimalZ.of_to n) as Hn.
  destruct (Z.to_int n) as [u|u]; cbn [Js.int_chars].
  - rewrite read_number_unsigned by done. by rewrite Hn.
  - cbn [app]. unfold read_number. rewrite decide_True by done.
    rewrite read_digits_chars, Hw by done. by rewrite Hn.
Qed.

Lemma Number_chars_head n :
  exists c t, Js.Number_chars n = c :: t /\ c <> "]"%char.
Proof.
  unfold Js.Number_chars. pose proof (to_int_wellformed n) as Hw.
  destruct (Z.to_int n) as [u|u]; cbn [Js.int_chars]; [|by eauto].
  destruct u; [done|..]; cbn; eauto.
Qed.

End JsonNumbers.

Section JsonStrings.

Import JSON.

Lemma read_string_quote_char c t :
  read_string (quote_char c ++ t) = push c (read_string t).
Proof. destruct c as [[] [] [] [] [] [] [] []]; reflexivity. Qed.

Lemma read_string_quoted s rest :
  read_string
    (concat (quote_char <$> list_ascii_of_string s) ++ dquote :: rest)
  = Some (s, rest).
Proof.
  induction s as [|c s IH]; [done|].
  cbn [list_ascii_of_string fmap list_fmap concat].
  by rewrite <- app_assoc, read_string_quote_char, IH.
Qed.

Lemma quote_app s rest :
  quote s ++ rest
  = dquote ::
    concat (quote_char <$> list_ascii_of_string s) ++ dquote :: rest.
Proof. unfold quote. cbn. by rewrite <- app_assoc. Qed.

Lemma quote_length s : (2 <= length (quote s))%nat.
Proof. unfold quote. cbn. rewrite length_app. cbn. lia. Qed.

End JsonStrings.

Section JsonValues.

Import JSON.

(** The reader, one step at a time. *)
Lemma read_value_array fuel r :
  read_value (S fuel) ("["%char :: r) =
  match r with
  | [] => None
  | c' :: r' =>
      if decide (c' = "]"%char) then Some (Array [], r')
      else match read_elements fuel r with
           | Some (l, r'') => Some (Array l, r'')
           | None => None
           end
  end.
Proof. done. Qed.

Lemma read_value_object fuel r :
  read_value (S fuel) ("{"%char :: r) =
  match r with
  | [] => None
  | c' :: r' =>
      if decide (c' = "}"%char) then Some (Object [], r')
      else match read_members fuel r with
           | Some (m, r'') => Some (Object m, r'')
           | None => None
           end
  end.
Proof. done. Qed.

Lemma read_value_string fuel r :
  read_value (S fuel) (dquote :: r) =
  match read_string r with
  | Some (str, r') => Some (Str str, r')
  | None => None
  end.
Proof. done. Qed.

Lemma read_value_number fuel n rest :
  ends_number rest ->
  read_value (S fuel) (Js.Number_chars n ++ rest) = Some (Number n, rest).
Proof.
  intros Hrest. rewrite <- (read_number_chars n rest Hrest).
  unfold Js.Number_chars. pose proof (to_int_wellformed n) as Hw.
  destruct (Z.to_int n) as [u|u]; cbn [Js.int_chars]; [|done].
  destruct u; [done|..]; done.
Qed.

Lemma read_elements_step fuel s :
  read_elements (S fuel) s =
  match read_value fuel s with
  | Some (v, c :: r) =>
      if decide (c = ","%char) then
        match read_elements fuel r with
        | Some (l, r') => Some (v :: l, r')
        | None => None
        end
      else if decide (c = "]"%char) then Some ([v], r)
      else None
  | _ => None
  end.
Proof. done. Qed.

Lemma read_members_step fuel s1 :
  read_members (S fuel) (dquote :: s1) =
  match read_string s1 with
  | Some (k, c1 :: s2) =>
      if decide (c1 = ":"%char) then
        match read_value fuel s2 with
        | Some (v, c :: r) =>
            if decide (c = ","%char) then
              match read_members fuel r with
              | Some (m, r') => Some ((k, v) :: m, r')
              | None => None
              end
            else if decide (c = "}"%char) then Some ([(k, v)], r)
            else None
        | _ => None
        end
      else None
  | _ => None
  end.
Proof. done. Qed.

Lemma emit_head v : exists c t, emit v = c :: t /\ c <> "]"%char.
Proof.
  destruct v as [|[]|n|s|l|m]; cbn [emit list_ascii_of_string];
    try (do 2 eexists; split; [reflexivity|done]).
  apply Number_chars_head.
Qed.

Lemma read_elements_emit l :
  l <> [] -> Forall reads_back l ->
  forall fuel rest,
    (list_sum (map (fun x => S (size x)) l) <= fuel)%nat ->
    read_elements fuel (commas (map emit l) ++ "]"%char :: rest)
    = Some (l, rest).
Proof.
  intros Hne Hall. induction Hall as [|v l Hv Hall IH]; [done|].
  intros [|fuel] rest Hfuel; cbn in Hfuel; [lia|].
  rewrite read_elements_step. destruct l as [|v' l].
  - cbn [map commas]. rewrite Hv by (done || lia).
    rewrite decide_False, decide_True by done. done.
  - change (commas (map emit (v :: v' :: l)))
      with (emit v ++ ","%char :: commas (map emit (v' :: l))).
    rewrite <- app_assoc. cbn [app].
    rewrite Hv by (done || cbn in *; lia).
    rewrite decide_True by done.
    rewrite IH by (done || cbn in *; lia). done.
Qed.

Lemma read_members_emit m :
  m <> [] -> Forall (fun kv => reads_back (snd kv)) m ->
  forall fuel rest,
    (list_sum (map (fun kv => S (size (snd kv))) m) <= fuel)%nat ->
    read_members fuel
      (commas (map (fun kv => quote (fst kv) ++ ":"%char :: emit (snd kv)) m)
       ++ "}"%char :: rest)
    = Some (m, rest).
Proof.
  intros Hne Hall. induction Hall as [|[k v] m Hv Hall IH]; [done|].
  intros [|fuel] rest Hfuel; cbn in Hfuel; [lia|].
  cbn [fst snd] in *. destruct m as [|kv' m].
  - cbn [map commas fst snd]. rewrite <- app_assoc, quote_app.
    rewrite read_members_step, read_string_quoted. cbn [app].
    rewrite decide_True by done.
    rewrite Hv by (done || lia).
    rewrite decide_False, decide_True by done. done.
  - change (commas (map ?f ((k, v) :: kv' :: m)))
      with ((quote k ++ ":"%char :: emit v)
              ++ ","%char :: commas (map f (kv' :: m))).
    rewrite <- !app_assoc, quote_app.
    rewrite read_members_step, read_string_quoted. cbn [app].
    rewrite decide_True by done.
    rewrite Hv by (done || cbn in *; lia).
    rewrite decide_True by done.
    rewrite IH by (done || cbn in *; lia). done.
Qed.

Lemma read_value_emit v : reads_back v.
Proof.
  induction v as [|b|n|s|l IH|m IH] using value_ind;
    intros [|fuel] rest Hfuel Hrest; cbn [size] in Hfuel; try lia.
  - done.
  - by destruct b.
  - by apply read_value_number.
  - cbn [emit]. rewrite quote_app, read_value_string, read_string_quoted.
    done.
  - cbn [emit app]. rewrite <- app_assoc. cbn [app].
    rewrite read_value_array. destruct l as [|v l]; [done|].
    destruct (emit_head v) as (c & t & Hc & Hne).
    assert (exists t', commas (map emit (v :: l)) ++ "]"%char :: rest
                       = c :: t') as [t' Ht'].
    { cbn [map commas]. rewrite Hc. destruct (map emit l); cbn; eauto. }
    rewrite Ht', decide_False by done. rewrite <- Ht'.
    rewrite read_elements_emit by (done || lia). done.
  - cbn [emit app]. rewrite <- app_assoc. cbn [app].
    rewrite read_value_object. destruct m as [|[k v] m]; [done|].
    assert (exists t', commas (map (fun kv => quote (fst kv) ++ ":"%char
                                              :: emit (snd kv))
                                 ((k, v) :: m)) ++ "}"%char :: rest
                       = dquote :: t') as [t' Ht'].
    { cbn [map commas fst]. unfold quote at 1.
      destruct (map _ m); cbn; eauto. }
    rewrite Ht', decide_False by done. rewrite <- Ht'.
    rewrite read_members_emit by (done || lia). done.
Qed.

End JsonValues.

Section JsonRoundTrip.

Import JSON.

Lemma commas_length (pieces : list text) (sizes : list nat) :
  Forall2 (fun p n => (n <= length p)%nat) pieces sizes ->
  (list_sum (map S sizes) <= S (length (commas pieces)))%nat.
Proof.
  induction 1 as [|p n pieces sizes Hp Hall IH]; [cbn; lia|].
  change (list_sum (map S (n :: sizes)))
    with (S n + list_sum (map S sizes))%nat.
  destruct pieces as [|p' pieces].
  - inversion Hall; subst. cbn. lia.
  - change (commas (p :: p' :: pieces))
      with (p ++ ","%char :: commas (p' :: pieces)).
    rewrite length_app. cbn [length]. lia.
Qed.

(** The reader's fuel: a value is never larger than its text. *)
Lemma size_le_length v : (size v <= length (emit v))%nat.
Proof.
  induction v as [|b|n|s|l IH|m IH] using value_ind; cbn [size emit].
  - cbn. lia.
  - destruct b; cbn; lia.
  - destruct (Number_chars_head n) as (c & t & -> & _). cbn. lia.
  - pose proof (quote_length s). lia.
  - cbn [length]. rewrite length_app. cbn [length].
    enough (list_sum (map S (map size l))
            <= S (length (commas (map emit l))))%nat as H.
    { rewrite map_map in H. lia. }
    apply commas_length.
    induction IH as [|v l Hv _ IHl]; cbn [map]; constructor; done.
  - cbn [length]. rewrite length_app. cbn [length].
    enough (list_sum (map S (map (fun kv => size (snd kv)) m))
            <= S (length (commas
                 (map (fun kv => quote (fst kv) ++ ":"%char :: emit (snd kv))
                    m))))%nat as H.
    { rewrite map_map in H. lia. }
    apply commas_length.
    induction IH as [|[k v] m Hv _ IHm]; cbn [map]; constructor; [|done].
    cbn [fst snd] in *. rewrite length_app. cbn [length]. lia.
Qed.

(** [JSON.parse(JSON.stringify(v))] is [v]. *)
Lemma parse_stringify v : parse (stringify v) = Some v.
Proof.
  unfold parse, stringify. rewrite list_ascii_of_string_of_list_ascii.
  rewrite <- (app_nil_r (emit v)) at 2.
  rewrite read_value_emit; [done| |done].
  pose proof (size_le_length v). lia.
Qed.

Lemma stringify_nonempty v : stringify v <> "".
Proof.
  unfold stringify. destruct (emit_head v) as (c & t & -> & _). done.
Qed.

End JsonRoundTrip.

(** ** The state as a JavaScript value *)

Section StateValues.

Lemma js_of_theme_inj t t' : js_of_theme t = js_of_theme t' -> t = t'.
Proof. by destruct t, t'. Qed.

Lemma js_of_list_inj l l' : js_of_list l = js_of_list l' -> l = l'.
Proof. destruct l, l'. unfold js_of_list; cbn. intros H. by simplify_eq. Qed.

Lemma js_of_card_inj c c' : js_of_card c = js_of_card c' -> c = c'.
Proof. destruct c, c'. unfold js_of_card; cbn. intros H. by simplify_eq. Qed.

Lemma fmap_inj_list {A B} (f : A -> B) :
  (forall x y, f x = f y -> x = y) ->
  forall l l' : list A, f <$> l = f <$> l' -> l = l'.
Proof.
  intros Hf l. induction l as [|x l IH]; intros [|y l'] H; try done.
  cbn in H. injection H as Hxy Hl. f_equal; [by apply Hf|by apply IH].
Qed.

(** Two states with the same value are the same state: equality of
    the values is deep equality of the states. *)
Lemma js_of_state_inj st st' : js_of_state st = js_of_state st' -> st = st'.
Proof.
  destruct st as [ls cs t s], st' as [ls' cs' t' s'].
  unfold js_of_state; cbn. intros H. simplify_eq.
  f_equal.
  - eapply fmap_inj_list; [apply js_of_list_inj|done].
  - eapply fmap_inj_list; [apply js_of_card_inj|done].
  - by apply js_of_theme_inj.
Qed.

Lemma getItem_setItem key value items :
  exists items',
    setItem key value (Available items) = Js.Normal (Available items')
    /\ getItem key (Available items') = Js.Normal (Some value).
Proof. eexists. split; [done|]. cbn. by rewrite lookup_insert_eq. Qed.

End StateValues.

(** ** Lower case on ASCII text *)

Section CaseFolding.

Lemma string_app_assoc (a b c : string) : (a +:+ b) +:+ c = a +:+ (b +:+ c).
Proof.
  induction a as [|x a IH]; [done|].
  change (String x ((a +:+ b) +:+ c) = String x (a +:+ (b +:+ c))).
  by rewrite IH.
Qed.

Lemma asciiLowerCase_app a b :
  Js.asciiLowerCase (a +:+ b) = Js.asciiLowerCase a +:+ Js.asciiLowerCase b.
Proof.
  induction a as [|x a IH]; [done|].
  change (String (Js.ascii_lower_char x) (Js.asciiLowerCase (a +:+ b))
          = String (Js.ascii_lower_char x)
              (Js.asciiLowerCase a +:+ Js.asciiLowerCase b)).
  by rewrite IH.
Qed.


Lemma ascii_only_app a b :
  Js.ascii_only (a +:+ b) <-> Js.ascii_only a /\ Js.ascii_only b.
Proof.
  unfold Js.ascii_only. induction a as [|x a IH].
  - cbn. split; [intros H; split; [constructor|done]|by intros [_ ?]].
  - change (list_ascii_of_string (String x a +:+ b))
      with (x :: list_ascii_of_string (a +:+ b)).
    cbn [list_ascii_of_string]. rewrite !Forall_cons, IH. tauto.
Qed.

Lemma ascii_only_substring w s :
  substring_of w s -> Js.ascii_only s -> Js.ascii_only w.
Proof.
  intros (pre & post & ->) H.
  apply ascii_only_app in H as [_ H]. by apply ascii_only_app in H as [H _].
Qed.

Lemma N_of_ascii_inj a b : N_of_ascii a = N_of_ascii b -> a = b.
Proof.
  intros H. by rewrite <- (ascii_N_embedding a), <- (ascii_N_embedding b), H.
Qed.

Lemma N_of_ascii_lower c :
  N_of_ascii (Js.ascii_lower_char c)
  = (if ((65 <=? N_of_ascii c) && (N_of_ascii c <=? 90))%N
     then N_of_ascii c + 32 else N_of_ascii c)%N.
Proof.
  unfold Js.ascii_lower_char.
  destruct ((65 <=? N_of_ascii c) && (N_of_ascii c <=? 90))%N eqn:E; [|done].
  apply andb_true_iff in E as [_ E%N.leb_le].
  apply N_ascii_embedding. lia.
Qed.

(** Two characters lower to the same one exactly when they are the same
    with case ignored. *)
Lemma ascii_lower_char_same a b :
  Js.ascii_lower_char a = Js.ascii_lower_char b <->
  same_char_ignoring_case a b.
Proof.
  unfold same_char_ignoring_case. cbv zeta. split.
  - intros H%(f_equal N_of_ascii). rewrite !N_of_ascii_lower in H.
    destruct (N.leb_spec 65 (N_of_ascii a)), (N.leb_spec (N_of_ascii a) 90),
             (N.leb_spec 65 (N_of_ascii b)), (N.leb_spec (N_of_ascii b) 90);
      cbn [andb] in H;
      first [ left; apply N_of_ascii_inj; lia
            | right; left; lia
            | right; right; lia ].
  - intros H. apply N_of_ascii_inj. rewrite !N_of_ascii_lower.
    destruct (N.leb_spec 65 (N_of_ascii a)), (N.leb_spec (N_of_ascii a) 90),
             (N.leb_spec 65 (N_of_ascii b)), (N.leb_spec (N_of_ascii b) 90);
      cbn [andb]; destruct H as [->|H]; lia.
Qed.

Lemma asciiLowerCase_same a : forall b,
  Js.asciiLowerCase a = Js.asciiLowerCase b <-> same_ignoring_case a b.
Proof.
  unfold same_ignoring_case.
  induction a as [|x a IH]; intros [|y b]; cbn.
  - split; [constructor|done].
  - split; [done|]. intros H. inversion H.
  - split; [done|]. intros H. inversion H.
  - rewrite Forall2_cons, <- IH, <- ascii_lower_char_same. split.
    + intros H. by injection H.
    + by intros [-> ->].
Qed.


Lemma lowers_ascii_empty (toLowerCase : string -> string) :
  lowers_ascii toLowerCase -> toLowerCase "" = "".
Proof. intros Hf. apply (Hf ""). constructor. Qed.

End CaseFolding.

(** ** Sorting by a number *)

Section Sorting.

Context {A : Type} (key : A -> Z) (compareFn : A -> A -> Z).
Hypothesis compare_key : forall a b, compareFn a b = key a - key b.

Lemma insert_Permutation x l : JsArray.insert compareFn x l ≡ₚ x :: l.
Proof.
  induction l as [|y l IH]; cbn; [done|].
  destruct (compareFn x y <=? 0); [done|].
  rewrite IH. apply Permutation_swap.
Qed.

Lemma sort_cons x l :
  JsArray.sort compareFn (x :: l)
  = JsArray.insert compareFn x (JsArray.sort compareFn l).
Proof. done. Qed.

Lemma sort_Permutation l : JsArray.sort compareFn l ≡ₚ l.
Proof.
  induction l as [|x l IH]; [done|].
  by rewrite sort_cons, insert_Permutation, IH.
Qed.

Lemma ascending_nil : ascending key [].
Proof. intros i j x y _ Hx. by rewrite lookup_nil in Hx. Qed.

Lemma ascending_cons x l :
  ascending key (x :: l) <->
  (forall y, y ∈ l -> key x <= key y) /\ ascending key l.
Proof.
  split.
  - intros H. split.
    + intros y [j Hj]%list_elem_of_lookup.
      apply (H 0%nat (S j) x y); [lia|done|done].
    + intros i j a b Hij Ha Hb. apply (H (S i) (S j) a b); [lia|done|done].
  - intros [Hx Hl] i j a b Hij Ha Hb.
    destruct j as [|j]; [lia|]. cbn in Hb. destruct i as [|i]; cbn in Ha.
    + injection Ha as <-. apply Hx. by eapply list_elem_of_lookup_2.
    + apply (Hl i j a b); [lia|done|done].
Qed.

Lemma insert_ascending x l :
  ascending key l -> ascending key (JsArray.insert compareFn x l).
Proof.
  induction l as [|y l IH]; intros Hl; cbn.
  - apply ascending_cons. split; [by intros ? ?%elem_of_nil|done].
  - apply ascending_cons in Hl as [Hy Hl].
    destruct (Z.leb_spec (compareFn x y) 0) as [Hc|Hc];
      rewrite compare_key in Hc; apply ascending_cons.
    + split; [|by apply ascending_cons].
      intros z [->|Hz]%elem_of_cons; [lia|]. specialize (Hy z Hz). lia.
    + split; [|by apply IH].
      intros z Hz. rewrite insert_Permutation in Hz.
      apply elem_of_cons in Hz as [->|Hz]; [lia|by apply Hy].
Qed.

Lemma sort_ascending l : ascending key (JsArray.sort compareFn l).
Proof.
  induction l as [|x l IH]; [apply ascending_nil|].
  rewrite sort_cons. by apply insert_ascending.
Qed.

(** The sort is stable: the elements of one key keep their order. *)
Lemma insert_stable k x l :
  filter (fun y => key y = k) (JsArray.insert compareFn x l)
  = filter (fun y => key y = k) (x :: l).
Proof.
  induction l as [|y l IH]; cbn; [done|].
  destruct (Z.leb_spec (compareFn x y) 0) as [Hc|Hc]; [done|].
  rewrite compare_key in Hc.
  rewrite filter_cons, IH, !filter_cons.
  destruct (decide (key y = k)), (decide (key x = k)); try done. lia.
Qed.

Lemma sort_stable k l :
  filter (fun y => key y = k) (JsArray.sort compareFn l)
  = filter (fun y => key y = k) l.
Proof.
  induction l as [|x l IH]; [done|].
  by rewrite sort_cons, insert_stable, !filter_cons, IH.
Qed.

(** An array already in order is left as it is. *)
Lemma sort_of_ascending l : ascending key l -> JsArray.sort compareFn l = l.
Proof.
  induction l as [|x l IH]; intros Hl; [done|].
  apply ascending_cons in Hl as [Hx Hl]. rewrite sort_cons, IH by done.
  destruct l as [|y l]; cbn; [done|].
  destruct (Z.leb_spec (compareFn x y) 0) as [Hc|Hc]; [done|].
  rewrite compare_key in Hc.
  assert (key x <= key y) by (apply Hx; by left). lia.
Qed.

End Sorting.

(** * The properties of the specification *)

Section Claims.

Implicit Types (st : IKanbanState) (now : nat -> Z).

(** C1, as stated, fails: two cards added at the same clock instant get
    the same id. *)
Lemma C1_same_instant_same_id :
  ~ ids_unique
      (run [ AddCard 1700000000000 1700000000000 "list-1" "First" "D";
             AddCard 1700000000000 1700000000000 "list-1" "Second" "D" ]
         (seedState (fun _ => 1700000000000))).
Proof.
  intros [_ H].
  match type of H with
  | ?P => assert (bool_decide P = false) as E by (vm_compute; reflexivity)
  end.
  by apply bool_decide_eq_false in E.
Qed.

Lemma seed_ids_unique now : ids_unique (seedState now).
Proof. split; by apply (bool_decide_unpack _). Qed.

(** C1 (amended): from the seed state, along every sequence of store
    operations in which no two addCard calls read the same clock
    instant for their id, no two addList calls do, and no such reading
    is the number of a seed id (1 to 4 for cards, 1 to 3 for lists),
    every list id stays unique across the lists and every card id
    across the cards. *)
Theorem C1_ids_unique_under_fresh_clock now events :
  clock_fresh events -> ids_unique (run events (seedState now)).
Proof.
  intros (Hcc & Hlc & Hc & Hl).
  apply run_ids_unique; [apply seed_ids_unique|done|done| |].
  - intros n Hn Hin.
    apply (proj1 (Forall_forall _ _) Hc n Hn).
    change (ICard.id <$> cards (seedState now))
      with ((fun k => "card-" +:+ Js.Number_toString k) <$> [1; 2; 3; 4])
      in Hin.
    apply list_elem_of_fmap in Hin as (k & Hk & Hin).
    by apply prefixed_numeral_inj in Hk as ->.
  - intros n Hn Hin.
    apply (proj1 (Forall_forall _ _) Hl n Hn).
    change (IList.id <$> lists (seedState now))
      with ((fun k => "list-" +:+ Js.Number_toString k) <$> [1; 2; 3])
      in Hin.
    apply list_elem_of_fmap in Hin as (k & Hk & Hin).
    by apply prefixed_numeral_inj in Hk as ->.
Qed.

Lemma C1_ids_unique_witness :
  ids_unique
    (run [ AddCard 1700000000000 1700000000000 "list-1" "First" "D";
           AddList 1700000000000 "Backlog";
           SetCardList "card-3" "list-3";
           AddCard 1700000000001 1700000000001 "list-2" "Second" "D";
           DeleteCard "card-1";
           AddList 1700000000002 "Later" ]
       (seedState (fun _ => 1700000000000))).
Proof.
  apply C1_ids_unique_under_fresh_clock.
  apply (bool_decide_unpack _). vm_compute. exact I.
Defined.

(** C2: when no card has the given id, setCardList, updateCard and
    deleteCard return the state they were given: lists and cards are
    unchanged, and no call fails (the actions are total functions). *)
Theorem C2_unmatched_id_is_noop st cardId :
  (forall card, card ∈ cards st -> ICard.id card <> cardId) ->
  (forall newListId, setCardList cardId newListId st = st) /\
  (forall newTitle newDescription,
     updateCard cardId newTitle newDescription st = st) /\
  deleteCard cardId st = st.
Proof.
  intros Hno. split_and!; intros.
  - by apply setCardList_unmatched.
  - by apply updateCard_unmatched.
  - by apply deleteCard_unmatched.
Qed.

Lemma C2_unmatched_id_witness :
  let st := seedState (fun _ => 1700000000000) in
  (forall newListId, setCardList "card-99" newListId st = st) /\
  (forall newTitle newDescription,
     updateCard "card-99" newTitle newDescription st = st) /\
  deleteCard "card-99" st = st.
Proof.
  apply C2_unmatched_id_is_noop.
  apply (proj1 (Forall_forall (fun card => ICard.id card <> "card-99") _)).
  apply (bool_decide_unpack _). vm_compute. exact I.
Defined.

(** C3: setCardList is idempotent: applying it twice with the same
    arguments gives the state of applying it once; and moving a card to
    the list it is already in returns the state unchanged. *)
Theorem C3_setCardList_idempotent st cardId listId :
  setCardList cardId listId (setCardList cardId listId st)
  = setCardList cardId listId st
  /\ ((forall card, card ∈ cards st -> ICard.id card = cardId ->
                    ICard.listId card = listId) ->
      setCardList cardId listId st = st).
Proof. split; [apply setCardList_twice|apply setCardList_same_list]. Qed.

Lemma C3_same_list_witness :
  let st := seedState (fun _ => 1700000000000) in
  setCardList "card-3" "list-2" st = st.
Proof.
  apply (proj2 (C3_setCardList_idempotent _ "card-3" "list-2")).
  apply (proj1 (Forall_forall
                  (fun card => ICard.id card = "card-3" ->
                               ICard.listId card = "list-2") _)).
  apply (bool_decide_unpack _). vm_compute. exact I.
Defined.

(** C4: reorderCards gives exactly the state of setCardList on the card
    and the target list; the source list, null or not, changes
    nothing. *)
Theorem C4_reorderCards_is_setCardList
    (sourceListId : option string) (cardId targetListId : string) st :
  reorderCards sourceListId cardId targetListId st
  = setCardList cardId targetListId st
  /\ dispatch (ReorderCards sourceListId cardId targetListId) st
     = dispatch (SetCardList cardId targetListId) st
  /\ forall sourceListId',
       reorderCards sourceListId' cardId targetListId st
       = reorderCards sourceListId cardId targetListId st.
Proof. done. Qed.




(** C6: writing a state with the persistence effect and then loading
    from the storage it leaves gives the value of that state: all of
    lists, cards, theme and searchTerm, deep-equal to the original. *)
Theorem C6_persist_then_load now st items className :
  exists b',
    persistEffect st (mkBrowser (Available items) className) = Js.Normal b'
    /\ getInitialState JSON.parse now (localStorage b') = js_of_state st
    /\ forall st', getInitialState JSON.parse now (localStorage b')
                   = js_of_state st' <-> st' = st.
Proof.
  eexists. split; [reflexivity|].
  assert (getInitialState JSON.parse now
            (Available (<[STORAGE_KEY := JSON.stringify (js_of_state st)]>
                          items))
          = js_of_state st) as Hload.
  { unfold getInitialState. cbn [getItem]. rewrite lookup_insert_eq.
    rewrite decide_False by apply stringify_nonempty.
    by rewrite parse_stringify. }
  split; [exact Hload|].
  intros st'. cbn [localStorage]. rewrite Hload. split.
  - intros H. by apply js_of_state_inj.
  - by intros ->.
Qed.

(** C7, as stated, fails: [order] is read from the render the callback
    was made in, so the second of two addList calls from one render gets
    the order of the first, one less than the number of lists before the
    call. *)
Lemma C7_second_addList_of_a_render :
  let seed := seedState (fun _ => 1700000000000) in
  let prevState := addList seed 1700000000001 "First" seed in
  ~ (exists l,
       lists (addList seed 1700000000002 "Second" prevState)
       = lists prevState ++ [l]
       /\ IList.order l = Z.of_nat (length (lists prevState))).
Proof.
  intros seed prevState (l & Hl & Ho).
  change (lists (addList seed 1700000000002 "Second" prevState))
    with (lists prevState ++
          [IList.mk ("list-" +:+ Js.Number_toString 1700000000002) "Second"
             "--color-list-yellow" (Z.of_nat (length (lists seed)))]) in Hl.
  apply app_inj_tail in Hl as [_ <-]. discriminate Ho.
Qed.

Lemma applyAll_lists_prefix (calls : list (IKanbanState * Action)) :
  forall st, lists st `prefix_of` lists (applyAll calls st).
Proof.
  unfold applyAll.
  induction calls as [|[rendered a] calls IH]; intros st; [done|].
  cbn [foldl fst snd]. etrans; [|apply IH].
  rewrite apply_lists. destruct a; try done. by apply prefix_app_r.
Qed.

Lemma renderedRun_lists_kept (events : list Action) : forall st l,
  l ∈ lists st -> l ∈ lists (renderedRun events st).
Proof.
  unfold renderedRun. induction events as [|a events IH]; intros st l Hl;
    [done|].
  cbn [foldl]. apply IH. cbn [BoardView.afterRender lists].
  rewrite sort_Permutation.
  destruct (dispatch_lists_prefix a st) as [added ->].
  apply elem_of_app. by left.
Qed.

(** C7 (amended): addList appends exactly one list, whose order is the
    number of lists of the render its callback was made in: the number of
    lists before the call when the call comes from the latest render, as
    the one call of handleAddList does. No operation reassigns the order
    of an existing list: the lists a state has stay where they are, with
    the fields they have, whatever operations follow and whichever render
    each is called from; and with the board rendering (and sorting the
    lists) after every operation, every list of the state is still among
    the lists, with the fields it has. *)
Theorem C7_addList_order_of_its_render (state prevState : IKanbanState)
    (now : Z) (title : string) :
  lists (addList state now title prevState)
  = lists prevState ++
    [IList.mk ("list-" +:+ Js.Number_toString now) title
       "--color-list-yellow" (Z.of_nat (length (lists state)))]
  /\ lists (dispatch (AddList now title) prevState)
     = lists prevState ++
       [IList.mk ("list-" +:+ Js.Number_toString now) title
          "--color-list-yellow" (Z.of_nat (length (lists prevState)))]
  /\ (forall calls : list (IKanbanState * Action),
       lists prevState `prefix_of` lists (applyAll calls prevState)
       /\ (IList.order <$> lists prevState)
            `prefix_of` (IList.order <$> lists (applyAll calls prevState)))
  /\ forall (events : list Action) l,
       l ∈ lists prevState -> l ∈ lists (renderedRun events prevState).
Proof.
  split_and!; [done|done| |].
  - intros calls.
    destruct (applyAll_lists_prefix calls prevState) as [added Hadded].
    split; [by exists added|].
    exists (IList.order <$> added). by rewrite Hadded, fmap_app.
  - intros events l. apply renderedRun_lists_kept.
Qed.

(** C8: updateCard gives the cards of the state one for one: a card
    with the given id keeps its id, listId and createdAt and gets the
    new title and description; every other card is unchanged. *)
Theorem C8_updateCard_frame st (cardId newTitle newDescription : string) :
  Forall2
    (fun card card' =>
       if decide (ICard.id card = cardId)
       then retitled newTitle newDescription card card'
       else card' = card)
    (cards st) (cards (updateCard cardId newTitle newDescription st)).
Proof.
  cbn. apply Forall2_fmap_r, Forall_Forall2_diag, Forall_forall.
  intros card _. cbn.
  destruct (decide (ICard.id card = cardId)); [by repeat split|done].
Qed.

(** C9: getInitialState returns a value in every case: the seed state
    when the storage throws, when the key is absent, when the stored
    text is empty, and when the parser throws; otherwise the parsed
    value as it is. The seed state has three lists, of orders 0, 1 and
    2, and four cards. *)
Theorem C9_getInitialState_total
    (JSON_parse : string -> option JSON.value) now (storage : Storage) :
  (getItem STORAGE_KEY storage = Js.Throw ->
   getInitialState JSON_parse now storage = js_of_state (seedState now))
  /\ (getItem STORAGE_KEY storage = Js.Normal None ->
      getInitialState JSON_parse now storage = js_of_state (seedState now))
  /\ (forall stored,
        getItem STORAGE_KEY storage = Js.Normal (Some stored) ->
        stored = "" \/ JSON_parse stored = None ->
        getInitialState JSON_parse now storage
        = js_of_state (seedState now))
  /\ (forall stored v,
        getItem STORAGE_KEY storage = Js.Normal (Some stored) ->
        stored <> "" -> JSON_parse stored = Some v ->
        getInitialState JSON_parse now storage = v)
  /\ IList.order <$> lists (seedState now) = [0; 1; 2]
  /\ length (cards (seedState now)) = 4%nat.
Proof.
  unfold getInitialState. split_and!; try done.
  - by intros ->.
  - by intros ->.
  - intros stored -> [->|Hp]; [done|].
    case_decide; [done|]. by rewrite Hp.
  - intros stored v -> Hne Hp. rewrite decide_False by done.
    by rewrite Hp.
Qed.

Lemma C9_getInitialState_witness :
  getInitialState JSON.parse (fun _ => 1700000000000)
    (Available {[ STORAGE_KEY := "[1,2]" ]})
  = JSON.Array [JSON.Number 1; JSON.Number 2].
Proof.
  apply (proj1 (proj2 (proj2 (proj2
           (C9_getInitialState_total JSON.parse (fun _ => 1700000000000)
              (Available {[ STORAGE_KEY := "[1,2]" ]})))))
           "[1,2]" (JSON.Array [JSON.Number 1; JSON.Number 2])).
  - vm_compute. reflexivity.
  - vm_compute. discriminate.
  - vm_compute. reflexivity.
Defined.

(** C10: each action writes its own part of the state: setCardList,
    addCard, updateCard and deleteCard leave lists, theme and
    searchTerm; addList leaves cards, theme and searchTerm; toggleTheme
    leaves lists, cards and searchTerm; setSearchTerm leaves lists,
    cards and theme. *)
Theorem C10_actions_frame st :
  (forall cardId newListId,
     let st' := setCardList cardId newListId st in
     lists st' = lists st /\ theme st' = theme st
     /\ searchTerm st' = searchTerm st)
  /\ (forall idNow createdNow listId title description,
        let st' := addCard idNow createdNow listId title description st in
        lists st' = lists st /\ theme st' = theme st
        /\ searchTerm st' = searchTerm st)
  /\ (forall cardId newTitle newDescription,
        let st' := updateCard cardId newTitle newDescription st in
        lists st' = lists st /\ theme st' = theme st
        /\ searchTerm st' = searchTerm st)
  /\ (forall cardId,
        let st' := deleteCard cardId st in
        lists st' = lists st /\ theme st' = theme st
        /\ searchTerm st' = searchTerm st)
  /\ (forall rendered (t : Z) title,
        let st' := addList rendered t title st in
        cards st' = cards st /\ theme st' = theme st
        /\ searchTerm st' = searchTerm st)
  /\ (let st' := toggleTheme st in
      lists st' = lists st /\ cards st' = cards st
      /\ searchTerm st' = searchTerm st /\ theme st' <> theme st)
  /\ (forall term,
        let st' := setSearchTerm term st in
        lists st' = lists st /\ cards st' = cards st
        /\ theme st' = theme st /\ searchTerm st' = term).
Proof. split_and!; try done. cbn. by destruct (theme st). Qed.

End Claims.

(** * Further properties of the store and the components *)

(** ** The card actions, composed *)

Section ActionAlgebra.

Implicit Types (st : IKanbanState) (card : ICard.t).

Lemma state_ext st st' :
  lists st = lists st' -> cards st = cards st' -> theme st = theme st' ->
  searchTerm st = searchTerm st' -> st = st'.
Proof. destruct st, st'; cbn; by intros -> -> -> ->. Qed.

(** A filter and a map commute when the map does not change what the
    filter looks at. *)
Lemma filter_fmap_stable {A} (P : A -> Prop) `{!forall x, Decision (P x)}
    (f : A -> A) (l : list A) :
  (forall x, P (f x) <-> P x) -> filter P (f <$> l) = f <$> filter P l.
Proof.
  intros Hf. induction l as [|x l IH]; [done|].
  rewrite fmap_cons, !filter_cons. destruct (decide (P x)) as [Hx|Hx].
  - rewrite decide_True by by apply Hf. by rewrite fmap_cons, IH.
  - rewrite decide_False by (by rewrite Hf). done.
Qed.


Ltac card_maps :=
  apply state_ext; try done; cbn;
  rewrite <- ?list_fmap_compose;
  apply list_fmap_ext; intros ? card _; cbn;
  repeat (case_decide; cbn in *); try done; congruence.

Lemma setCardList_overwrite cardId l1 l2 st :
  setCardList cardId l2 (setCardList cardId l1 st) = setCardList cardId l2 st.
Proof. card_maps. Qed.

Lemma updateCard_overwrite cardId t1 d1 t2 d2 st :
  updateCard cardId t2 d2 (updateCard cardId t1 d1 st)
  = updateCard cardId t2 d2 st.
Proof. card_maps. Qed.

Lemma setCardList_updateCard_comm c l c' t d st :
  setCardList c l (updateCard c' t d st)
  = updateCard c' t d (setCardList c l st).
Proof. card_maps. Qed.

Lemma setCardList_comm c l c' l' st :
  c <> c' ->
  setCardList c l (setCardList c' l' st)
  = setCardList c' l' (setCardList c l st).
Proof. intros Hne. card_maps. Qed.

Lemma updateCard_comm c t d c' t' d' st :
  c <> c' ->
  updateCard c t d (updateCard c' t' d' st)
  = updateCard c' t' d' (updateCard c t d st).
Proof. intros Hne. card_maps. Qed.

Lemma deleteCard_setCardList_comm c c' l st :
  deleteCard c (setCardList c' l st) = setCardList c' l (deleteCard c st).
Proof.
  apply state_ext; try done. cbn. apply filter_fmap_stable.
  intros card. by case_decide.
Qed.

Lemma deleteCard_updateCard_comm c c' t d st :
  deleteCard c (updateCard c' t d st) = updateCard c' t d (deleteCard c st).
Proof.
  apply state_ext; try done. cbn. apply filter_fmap_stable.
  intros card. by case_decide.
Qed.

Lemma deleteCard_comm c c' st :
  deleteCard c (deleteCard c' st) = deleteCard c' (deleteCard c st).
Proof.
  apply state_ext; try done. cbn. rewrite !list_filter_filter.
  apply list_filter_iff. tauto.
Qed.


Lemma toggleTheme_twice st : toggleTheme (toggleTheme st) = st.
Proof. apply state_ext; try done. cbn. by destruct (theme st). Qed.

End ActionAlgebra.

(** ** What every run keeps *)

Section RunInvariants.

Implicit Types (st : IKanbanState) (a : Action) (events : list Action).

Lemma orders_upto_S n : orders_upto (S n) = orders_upto n ++ [Z.of_nat n].
Proof. unfold orders_upto. by rewrite seq_S, fmap_app. Qed.

Lemma dispatch_lists_length a st :
  length (lists (dispatch a st))
  = (length (lists st) + length (list_id_clock [a]))%nat.
Proof.
  unfold dispatch. rewrite apply_lists.
  destruct a; cbn; rewrite ?length_app; cbn; lia.
Qed.

Lemma run_lists_length events : forall st,
  length (lists (run events st))
  = (length (lists st) + length (list_id_clock events))%nat.
Proof.
  induction events as [|a events IH]; intros st; [cbn; lia|].
  rewrite run_cons, IH, dispatch_lists_length.
  unfold list_id_clock. destruct a; cbn; lia.
Qed.

Lemma dispatch_orders a st :
  IList.order <$> lists st = orders_upto (length (lists st)) ->
  IList.order <$> lists (dispatch a st)
  = orders_upto (length (lists (dispatch a st))).
Proof.
  intros Hst. unfold dispatch. rewrite apply_lists.
  destruct a; try done.
  rewrite fmap_app, length_app, Hst. cbn [length fmap list_fmap].
  by rewrite Nat.add_1_r, orders_upto_S.
Qed.

Lemma run_orders events : forall st,
  IList.order <$> lists st = orders_upto (length (lists st)) ->
  IList.order <$> lists (run events st)
  = orders_upto (length (lists (run events st))).
Proof.
  induction events as [|a events IH]; intros st Hst; [done|].
  rewrite run_cons. by apply IH, dispatch_orders.
Qed.

Lemma orders_upto_ascending (l : list IList.t) :
  IList.order <$> l = orders_upto (length l) -> ascending IList.order l.
Proof.
  intros Hl i j x y Hij Hx Hy.
  assert (forall k z, l !! k = Some z -> IList.order z = Z.of_nat k) as Hk.
  { intros k z Hz.
    assert ((IList.order <$> l) !! k = Some (IList.order z)) as H
      by (by rewrite list_lookup_fmap, Hz).
    rewrite Hl in H. unfold orders_upto in H.
    rewrite list_lookup_fmap in H.
    apply lookup_lt_Some in Hz.
    rewrite lookup_seq_lt in H by done. cbn in H. by injection H as <-. }
  rewrite (Hk i x Hx), (Hk j y Hy). lia.
Qed.

Lemma afterRender_ordered st :
  IList.order <$> lists st = orders_upto (length (lists st)) ->
  BoardView.afterRender st = st.
Proof.
  intros Hst. apply state_ext; try done. cbn.
  apply (sort_of_ascending IList.order); [done|].
  by apply orders_upto_ascending.
Qed.

(** Where a card of the next state comes from. *)
Lemma dispatch_card_origin a st card' :
  card' ∈ cards (dispatch a st) ->
  (exists card, card ∈ cards st /\ ICard.id card' = ICard.id card
                /\ ICard.createdAt card' = ICard.createdAt card)
  \/ (exists idNow createdNow listId title description,
        a = AddCard idNow createdNow listId title description
        /\ ICard.id card' = "card-" +:+ Js.Number_toString idNow
        /\ ICard.createdAt card' = createdNow).
Proof.
  destruct a; cbn; intros Hin.
  - apply list_elem_of_fmap in Hin as (c & -> & Hc). left. exists c.
    by case_decide.
  - apply elem_of_app in Hin as [Hin| ->%list_elem_of_singleton].
    + left. by exists card'.
    + right. by do 5 eexists.
  - apply list_elem_of_fmap in Hin as (c & -> & Hc). left. exists c.
    by case_decide.
  - apply list_elem_of_filter in Hin as [_ Hin]. left. by exists card'.
  - left. by exists card'.
  - left. by exists card'.
  - left. by exists card'.
  - apply list_elem_of_fmap in Hin as (c & -> & Hc). left. exists c.
    by case_decide.
Qed.

End RunInvariants.

(** ** Trimming *)

Section Trimming.

Import JsString.

Implicit Types (t w e : list ascii) (pieces : list (list ascii)).

Lemma truthy_spec s : truthy s = true <-> s <> "".
Proof. by destruct s. Qed.

Lemma truthy_false s : truthy s = false <-> s = "".
Proof. by destruct s. Qed.

(** The encodings of the white space characters: none is empty, none
    starts or ends another, and no tail of one starts like another. *)
Lemma white_space_not_empty e : e ∈ white_space -> e <> [].
Proof.
  revert e. apply Forall_forall.
  apply (bool_decide_unpack _). vm_compute. exact I.
Qed.

Lemma white_space_prefix_free e1 e2 :
  e1 ∈ white_space -> e2 ∈ white_space -> e1 `prefix_of` e2 -> e1 = e2.
Proof.
  assert (Forall (fun e1 =>
            Forall (fun e2 => e1 `prefix_of` e2 -> e1 = e2) white_space)
            white_space) as H.
  { apply (bool_decide_unpack _). vm_compute. exact I. }
  intros H1 H2.
  exact (proj1 (Forall_forall _ _) (proj1 (Forall_forall _ _) H e1 H1) e2 H2).
Qed.

Lemma white_space_suffix_free e1 e2 :
  e1 ∈ white_space -> e2 ∈ white_space -> e1 `suffix_of` e2 -> e1 = e2.
Proof.
  assert (Forall (fun e1 =>
            Forall (fun e2 => e1 `suffix_of` e2 -> e1 = e2) white_space)
            white_space) as H.
  { apply (bool_decide_unpack _). vm_compute. exact I. }
  intros H1 H2.
  exact (proj1 (Forall_forall _ _) (proj1 (Forall_forall _ _) H e1 H1) e2 H2).
Qed.

Lemma white_space_no_overlap e1 e2 x y :
  e1 ∈ white_space -> e2 ∈ white_space -> e1 = x ++ y ->
  x <> [] -> y <> [] ->
  ~ y `prefix_of` e2 /\ ~ e2 `prefix_of` y.
Proof.
  assert (Forall (fun e1 =>
            Forall (fun e2 =>
              Forall (fun i => ~ drop i e1 `prefix_of` e2
                               /\ ~ e2 `prefix_of` drop i e1)
                (seq 1 (length e1 - 1)))
              white_space)
            white_space) as H.
  { apply (bool_decide_unpack _). vm_compute. exact I. }
  intros H1 H2 -> Hx Hy.
  rewrite Forall_forall in H. specialize (H _ H1).
  rewrite Forall_forall in H. specialize (H _ H2).
  rewrite Forall_forall in H. specialize (H (length x)).
  rewrite drop_app_length in H. apply H, elem_of_seq.
  rewrite length_app. destruct x, y; try done. cbn. lia.
Qed.

Lemma white_space_at_start_Some s e :
  white_space_at_start s = Some e -> e ∈ white_space /\ e `prefix_of` s.
Proof.
  intros [Hin He]%List.find_some. split; [by apply list_elem_of_In|].
  by apply bool_decide_eq_true in He.
Qed.

Lemma white_space_at_start_None s :
  white_space_at_start s = None -> ~ starts_with_white_space s.
Proof.
  intros Hnone (e & Hin & He)%Exists_exists.
  apply list_elem_of_In in Hin.
  pose proof (List.find_none _ _ Hnone e Hin) as Hf. cbn in Hf.
  by apply bool_decide_eq_false in Hf.
Qed.

Lemma white_space_at_start_app e r :
  e ∈ white_space -> white_space_at_start (e ++ r) = Some e.
Proof.
  intros He. destruct (white_space_at_start (e ++ r)) as [e'|] eqn:E.
  - apply white_space_at_start_Some in E as [He' Hpre]. f_equal.
    destruct (prefix_weak_total e' e (e ++ r) Hpre) as [H|H];
      [by apply prefix_app_r| |].
    + by apply white_space_prefix_free.
    + symmetry. by apply white_space_prefix_free.
  - apply white_space_at_start_None in E. destruct E.
    apply Exists_exists. exists e. split; [done|by apply prefix_app_r].
Qed.

Lemma trimStart_from_enough fuel : forall s fuel',
  (length s <= fuel)%nat -> (length s <= fuel')%nat ->
  trimStart_from fuel s = trimStart_from fuel' s.
Proof.
  induction fuel as [|fuel IH]; intros s fuel' H H'.
  - destruct s; [|cbn in H; lia]. by destruct fuel'.
  - destruct fuel' as [|fuel'].
    + destruct s; [|cbn in H'; lia]. done.
    + cbn [trimStart_from].
      destruct (white_space_at_start s) as [e|] eqn:E; [|done].
      apply white_space_at_start_Some in E as [He [r ->]].
      pose proof (white_space_not_empty e He).
      rewrite drop_app_length. rewrite length_app in H, H'.
      destruct e; [done|]. cbn in H, H'. apply IH; lia.
Qed.

Lemma trimStart_unfold s :
  trimStart s = match white_space_at_start s with
                | Some e => trimStart (drop (length e) s)
                | None => s
                end.
Proof.
  unfold trimStart. destruct s as [|c s]; [done|].
  cbn [length trimStart_from].
  destruct (white_space_at_start (c :: s)) as [e|] eqn:E; [|done].
  apply trimStart_from_enough; [|done].
  apply white_space_at_start_Some in E as [He [r Hr]].
  pose proof (white_space_not_empty e He).
  rewrite Hr, drop_app_length. apply (f_equal length) in Hr.
  rewrite length_app in Hr. destruct e; [done|]. cbn in Hr. lia.
Qed.

Lemma trimStart_nil : trimStart [] = [].
Proof. done. Qed.

Lemma trimStart_white_space e r :
  e ∈ white_space -> trimStart (e ++ r) = trimStart r.
Proof.
  intros He. rewrite trimStart_unfold, white_space_at_start_app by done.
  by rewrite drop_app_length.
Qed.

Lemma trimStart_concat pieces r :
  Forall (fun e => e ∈ white_space) pieces ->
  trimStart (concat pieces ++ r) = trimStart r.
Proof.
  induction 1 as [|e pieces He _ IH]; [done|].
  cbn [concat]. by rewrite <- app_assoc, trimStart_white_space.
Qed.

Lemma trimStart_other s : ~ starts_with_white_space s -> trimStart s = s.
Proof.
  intros Hs. rewrite trimStart_unfold.
  destruct (white_space_at_start s) as [e|] eqn:E; [|done].
  apply white_space_at_start_Some in E as [He Hpre]. destruct Hs.
  apply Exists_exists. by exists e.
Qed.

(** [trimStart] takes white space characters off, up to a character that
    is none. *)
Lemma trimStart_split s :
  exists pieces,
    Forall (fun e => e ∈ white_space) pieces
    /\ s = concat pieces ++ trimStart s
    /\ ~ starts_with_white_space (trimStart s).
Proof.
  remember (length s) as n eqn:Hn. revert s Hn.
  induction n as [n IH] using lt_wf_ind. intros s ->.
  rewrite trimStart_unfold.
  destruct (white_space_at_start s) as [e|] eqn:E.
  - pose proof E as [He [r ->]]%white_space_at_start_Some.
    rewrite drop_app_length.
    destruct (IH (length r)) with (s := r) as (pieces & Hp & Hr & Hn);
      [|done|].
    { rewrite length_app. pose proof (white_space_not_empty e He).
      destruct e; [done|cbn; lia]. }
    exists (e :: pieces). split_and!; [by constructor| |done].
    cbn [concat]. rewrite <- app_assoc. by f_equal.
  - exists []. split_and!; [constructor|done|].
    by apply white_space_at_start_None.
Qed.

Lemma only_white_space_b_spec s :
  only_white_space_b s = true <-> only_white_space s.
Proof.
  unfold only_white_space_b. rewrite bool_decide_eq_true. split.
  - intros H. destruct (trimStart_split s) as (pieces & Hp & Hs & _).
    rewrite H, app_nil_r in Hs. by exists pieces.
  - intros (pieces & Hp & ->).
    rewrite <- (app_nil_r (concat pieces)). by rewrite trimStart_concat.
Qed.

Lemma only_white_space_app s t :
  only_white_space s -> only_white_space t -> only_white_space (s ++ t).
Proof.
  intros (ps & Hps & ->) (pt & Hpt & ->). exists (ps ++ pt).
  split; [by apply Forall_app|by rewrite concat_app].
Qed.

(** [trimEnd] takes off a tail of white space characters, and leaves no
    white space character at the end. *)
Lemma trimEnd_split t :
  exists w, t = trimEnd t ++ w /\ only_white_space w.
Proof.
  induction t as [|c t (w & Ht & Hw)].
  - exists []. split; [done|]. by exists [].
  - cbn [trimEnd]. destruct (only_white_space_b (c :: t)) eqn:E.
    + exists (c :: t). split; [done|]. by apply only_white_space_b_spec.
    + exists w. split; [|done]. cbn. by f_equal.
Qed.

Lemma trimEnd_end t : ~ ends_with_white_space (trimEnd t).
Proof.
  intros (e & He & Hsuf)%Exists_exists.
  pose proof (white_space_not_empty e He) as Hne.
  induction t as [|c t IH]; cbn [trimEnd] in Hsuf.
  - by apply suffix_nil_inv in Hsuf.
  - destruct (only_white_space_b (c :: t)) eqn:E.
    + by apply suffix_nil_inv in Hsuf.
    + destruct e as [|a e]; [done|].
      apply suffix_cons_inv in Hsuf as [Heq|Hsuf]; [|by apply IH].
      destruct (trimEnd_split t) as (w & Ht & pieces & Hp & ->).
      assert (only_white_space_b (c :: t) = true) as E'; [|congruence].
      apply only_white_space_b_spec. exists ((a :: e) :: pieces).
      split; [by constructor|]. cbn [concat]. rewrite Heq. cbn. by f_equal.
Qed.

Lemma trimEnd_prefix t : trimEnd t `prefix_of` t.
Proof. destruct (trimEnd_split t) as (w & Ht & _). by exists w. Qed.

Lemma trimEnd_white_space t : only_white_space t -> trimEnd t = [].
Proof.
  intros H%only_white_space_b_spec. destruct t; [done|].
  cbn [trimEnd]. by rewrite H.
Qed.

(** A text put together from white space characters comes apart from the
    end as well. *)
Lemma concat_white_space_cancel_r (after : list (list ascii)) :
  forall (all : list (list ascii)) s,
    Forall (fun e => e ∈ white_space) after ->
    Forall (fun e => e ∈ white_space) all ->
    s ++ concat after = concat all ->
    only_white_space s.
Proof.
  induction after as [|a after IH] using rev_ind; intros all s Ha Hall Heq.
  - rewrite app_nil_r in Heq. by exists all.
  - apply Forall_app in Ha as [Hafter [Ha _]%Forall_cons].
    rewrite concat_app in Heq. cbn [concat] in Heq.
    rewrite app_nil_r in Heq.
    destruct all as [|p all _] using rev_ind.
    + cbn in Heq. apply app_eq_nil in Heq as [_ [_ ->]%app_eq_nil].
      by apply white_space_not_empty in Ha.
    + apply Forall_app in Hall as [Hall [Hp _]%Forall_cons].
      rewrite concat_app in Heq. cbn [concat] in Heq.
      rewrite app_nil_r, app_assoc in Heq.
      assert (a = p) as ->.
      { destruct (suffix_weak_total a p (concat all ++ p)) as [H|H].
        - rewrite <- Heq. by apply suffix_app_r.
        - by apply suffix_app_r.
        - by apply white_space_suffix_free.
        - symmetry. by apply white_space_suffix_free. }
      apply app_inv_tail in Heq. by apply (IH all).
Qed.

Lemma trimEnd_app s w :
  only_white_space w ->
  (forall x, x <> [] -> x `suffix_of` s -> ~ only_white_space (x ++ w)) ->
  trimEnd (s ++ w) = s.
Proof.
  intros Hw. induction s as [|c s IH]; intros Hs.
  - by apply trimEnd_white_space.
  - cbn [app trimEnd].
    destruct (only_white_space_b (c :: s ++ w)) eqn:E.
    + apply only_white_space_b_spec in E. by destruct (Hs (c :: s)).
    + f_equal. apply IH. intros x Hx Hsuf. apply Hs; [done|].
      by apply suffix_cons_r.
Qed.

Lemma list_ascii_of_string_nil s : list_ascii_of_string s = [] <-> s = "".
Proof. by destruct s. Qed.

Lemma trim_chars s :
  list_ascii_of_string (trim s)
  = trimEnd (trimStart (list_ascii_of_string s)).
Proof. apply list_ascii_of_string_of_list_ascii. Qed.

(** [trim] gives the empty string for white space and for nothing
    else. *)
Lemma trim_empty s :
  trim s = "" <-> only_white_space (list_ascii_of_string s).
Proof.
  rewrite <- list_ascii_of_string_nil, trim_chars.
  destruct (trimStart_split (list_ascii_of_string s))
    as (pieces & Hp & Hs & _).
  destruct (trimEnd_split (trimStart (list_ascii_of_string s)))
    as (w & Hu & Hw).
  split.
  - intros H. rewrite H in Hu. cbn in Hu. rewrite Hs, Hu.
    apply only_white_space_app; [by exists pieces|done].
  - intros (all & Hall & Hl). rewrite Hl.
    rewrite <- (app_nil_r (concat all)). by rewrite trimStart_concat.
Qed.

Lemma trim_trimmed s : trim s <> "" -> trimmed_title (trim s).
Proof.
  intros H. split_and!; [done| |]; rewrite trim_chars.
  - destruct (trimStart_split (list_ascii_of_string s))
      as (_ & _ & _ & Hstart).
    intros (e & He & Hpre)%Exists_exists. apply Hstart, Exists_exists.
    exists e. split; [done|]. etrans; [exact Hpre|apply trimEnd_prefix].
  - apply trimEnd_end.
Qed.

Lemma trim_trimmed_from s : trim s <> "" -> trimmed_from s (trim s).
Proof.
  intros H. split; [by apply trim_trimmed|]. rewrite trim_chars.
  destruct (trimStart_split (list_ascii_of_string s))
    as (pieces & Hp & Hs & _).
  destruct (trimEnd_split (trimStart (list_ascii_of_string s)))
    as (w & Hu & Hw).
  exists (concat pieces), w. split_and!; [by exists pieces|done|].
  by rewrite <- Hu.
Qed.

(** What [trim] gives is the only text that is the typed one without the
    white space around it. *)
Lemma trimmed_from_trim typed core :
  trimmed_from typed core -> core = trim typed.
Proof.
  intros [(Hne & Hstart & Hend) (before & after & Hb & Ha & Heq)].
  rewrite <- (string_of_list_ascii_of_string core). unfold trim. f_equal.
  rewrite Heq. destruct Hb as (pb & Hpb & ->).
  rewrite trimStart_concat by done.
  rewrite trimStart_other.
  - symmetry. apply trimEnd_app; [done|]. intros x Hx Hsuf Hall.
    destruct Ha as (pa & Hpa & ->). destruct Hall as (all & Hall & Hxall).
    destruct (concat_white_space_cancel_r pa all x Hpa Hall Hxall)
      as (px & Hpx & ->).
    destruct px as [|p px _] using rev_ind; [done|].
    apply Forall_app in Hpx as [_ [Hp _]%Forall_cons].
    apply Hend, Exists_exists. exists p. split; [done|].
    etrans; [|exact Hsuf]. rewrite concat_app. cbn [concat].
    rewrite app_nil_r. by apply suffix_app_r.
  - intros (e & He & Hpre)%Exists_exists.
    assert (list_ascii_of_string core <> []) as Hcore
      by by rewrite list_ascii_of_string_nil.
    destruct (prefix_weak_total e (list_ascii_of_string core) _ Hpre)
      as [H|[y Hy]]; [by apply prefix_app_r| |].
    { apply Hstart, Exists_exists. by exists e. }
    destruct y as [|c y].
    { apply Hstart, Exists_exists. exists e. split; [done|].
      by rewrite Hy, app_nil_r. }
    rewrite Hy in Hpre. apply prefix_app_inv in Hpre.
    destruct Ha as (pa & Hpa & ->).
    destruct Hpa as [|p pa Hp _].
    { by apply prefix_nil_inv in Hpre. }
    cbn [concat] in Hpre.
    destruct (white_space_no_overlap e p (list_ascii_of_string core)
                (c :: y) He Hp Hy Hcore) as [H1 H2]; [done|].
    destruct (prefix_weak_total (c :: y) p _ Hpre); [by apply prefix_app_r| |];
      done.
Qed.

End Trimming.

(** ** The handlers and the gestures *)

Section Gestures.

Implicit Types (st : IKanbanState) (g : Gesture).

Lemma handleDrop_after_dragStart card list dt st :
  ListView.handleDrop list (CardComponent.handleDragStart card dt) st
  = if decide (ICard.id card = "") then st
    else setCardList (ICard.id card) (IList.id list) st.
Proof.
  unfold ListView.handleDrop, CardComponent.handleDragStart, getData, setData.
  cbn [dragData]. rewrite lookup_insert_eq. cbn [default].
  destruct (ICard.id card); by case_decide.
Qed.

Lemma perform_effect g st st' :
  perform g st = Some st' -> gesture_effect st st'.
Proof.
  destruct g as [list typed idNow createdNow|card list|card|card t d
                |typed now|value|]; cbn [perform]; intros H.
  - case_decide as Hin; [|done]. injection H as <-.
    unfold ListView.handleAddCard. cbn [ListView.newCardTitle].
    destruct (JsString.truthy (JsString.trim typed)) eqn:E; cbn [snd].
    + apply effect_addCard; [done|by apply truthy_spec].
    + apply effect_none.
  - case_decide as Hin; [|done]. injection H as <-.
    rewrite handleDrop_after_dragStart. case_decide.
    + apply effect_none.
    + by apply effect_move.
  - injection H as <-. apply effect_delete.
  - injection H as <-. apply effect_update.
  - injection H as <-.
    unfold BoardView.handleAddList. cbn [BoardView.newListTitle].
    destruct (JsString.truthy (JsString.trim typed)) eqn:E; cbn [snd].
    + apply effect_addList. by apply truthy_spec.
    + apply effect_none.
  - injection H as <-. apply effect_search.
  - injection H as <-. apply effect_theme.
Qed.

(** What the board keeps: every card on a list of the board, every list
    title as a form gives it, the orders counting from zero, no card
    without an id. *)
Lemma effect_keeps_cards_on_lists st st' :
  gesture_effect st st' -> cards_on_lists st -> cards_on_lists st'.
Proof.
  intros H Hst. destruct H; try done.
  - intros card [Hc| ->%list_elem_of_singleton]%elem_of_app.
    + by apply Hst.
    + cbn. by apply list_elem_of_fmap_2.
  - intros c (c0 & -> & Hc0)%list_elem_of_fmap. cbn. case_decide.
    + cbn. by apply list_elem_of_fmap_2.
    + by apply Hst.
  - intros c [_ Hc]%list_elem_of_filter. by apply Hst.
  - intros c (c0 & -> & Hc0)%list_elem_of_fmap. cbn.
    case_decide; [cbn|]; by apply Hst.
  - intros c Hc. cbn. rewrite fmap_app. apply elem_of_app. left.
    by apply Hst.
Qed.

Lemma effect_keeps_list_titles st st' :
  gesture_effect st st' ->
  (forall l, l ∈ lists st -> trimmed_title (IList.title l)) ->
  (forall l, l ∈ lists st' -> trimmed_title (IList.title l)).
Proof.
  intros H Hst. destruct H; try done.
  intros l [Hl| ->%list_elem_of_singleton]%elem_of_app; [by apply Hst|].
  cbn. by apply trim_trimmed.
Qed.

Lemma effect_keeps_orders st st' :
  gesture_effect st st' ->
  IList.order <$> lists st = orders_upto (length (lists st)) ->
  IList.order <$> lists st' = orders_upto (length (lists st')).
Proof.
  intros H Hst. destruct H; try done.
  by apply (dispatch_orders (AddList now (JsString.trim typed))).
Qed.

Lemma effect_keeps_card_ids st st' :
  gesture_effect st st' ->
  (forall card, card ∈ cards st -> ICard.id card <> "") ->
  (forall card, card ∈ cards st' -> ICard.id card <> "").
Proof.
  intros H Hst. destruct H; try done.
  - intros card [Hc| ->%list_elem_of_singleton]%elem_of_app; [by apply Hst|].
    done.
  - intros c (c0 & -> & Hc0)%list_elem_of_fmap. cbn.
    case_decide; [cbn|]; by apply Hst.
  - intros c [_ Hc]%list_elem_of_filter. by apply Hst.
  - intros c (c0 & -> & Hc0)%list_elem_of_fmap. cbn.
    case_decide; [cbn|]; by apply Hst.
Qed.

End Gestures.

(** ** The columns of the board *)

Section Board.

Variable toLowerCase : string -> string.

Implicit Types (st : IKanbanState) (ls : list IList.t) (cs : list ICard.t).

Lemma compareOrder_key a b :
  BoardView.compareOrder a b = IList.order a - IList.order b.
Proof. done. Qed.

Lemma compareNewestFirst_key a b :
  ListView.compareNewestFirst a b
  = (fun c => - ICard.createdAt c) a - (fun c => - ICard.createdAt c) b.
Proof. unfold ListView.compareNewestFirst. lia. Qed.

Lemma sortedLists_Permutation ls : JsArray.sort BoardView.compareOrder ls ≡ₚ ls.
Proof. apply sort_Permutation. Qed.

Lemma renderedCards_Permutation cs : ListView.renderedCards cs ≡ₚ cs.
Proof. apply sort_Permutation. Qed.

Lemma columns_lists st :
  fst <$> BoardView.columns toLowerCase st
  = JsArray.sort BoardView.compareOrder (lists st).
Proof.
  unfold BoardView.columns. rewrite <- list_fmap_compose.
  apply list_fmap_id.
Qed.

Lemma cardsOfList_spec st list card :
  card ∈ BoardView.cardsOfList toLowerCase st list <->
  card ∈ cards st /\ matchesSearch toLowerCase (searchTerm st) card = true
  /\ ICard.listId card = IList.id list.
Proof.
  unfold BoardView.cardsOfList, filteredCards.
  rewrite !list_elem_of_filter. tauto.
Qed.

(** Two filters that never keep the same element, side by side, keep what
    one filter for either keeps. *)
Lemma filter_disjoint_union {A} (P Q : A -> Prop)
    `{!forall x, Decision (P x)} `{!forall x, Decision (Q x)} (l : list A) :
  (forall x, P x -> Q x -> False) ->
  filter P l ++ filter Q l ≡ₚ filter (fun x => P x \/ Q x) l.
Proof.
  intros Hdisj. induction l as [|x l IH]; [done|].
  rewrite !filter_cons.
  destruct (decide (P x)) as [HP|HP], (decide (Q x)) as [HQ|HQ].
  - destruct (Hdisj x HP HQ).
  - rewrite decide_True by tauto. cbn. by rewrite IH.
  - rewrite decide_True by tauto. rewrite <- Permutation_middle. by rewrite IH.
  - rewrite decide_False by tauto. done.
Qed.

(** Filtering the cards list by list, for lists of different ids, gives
    every card that is on one of the lists, once. *)
Lemma concat_by_list ls cs :
  NoDup (IList.id <$> ls) ->
  concat ((fun l => filter (fun c => ICard.listId c = IList.id l) cs) <$> ls)
  ≡ₚ filter (fun c => ICard.listId c ∈ IList.id <$> ls) cs.
Proof.
  induction ls as [|l ls IH]; intros Hnd.
  - cbn. symmetry. apply Permutation_nil_r.
    induction cs as [|c cs IHc]; [done|].
    rewrite filter_cons_False; [done|]. cbn. apply not_elem_of_nil.
  - cbn [fmap list_fmap concat] in *. apply NoDup_cons in Hnd as [Hl Hnd].
    rewrite IH by done.
    rewrite (filter_disjoint_union
               (fun c => ICard.listId c = IList.id l)
               (fun c => ICard.listId c ∈ IList.id <$> ls)).
    + apply reflexive_eq, list_filter_iff. intros c.
      rewrite elem_of_cons. tauto.
    + intros c -> Hin. done.
Qed.

Lemma concat_Permutation_pointwise {A B} (f g : A -> list B) (l : list A) :
  (forall x, f x ≡ₚ g x) -> concat (f <$> l) ≡ₚ concat (g <$> l).
Proof.
  intros Hfg. induction l as [|x l IH]; [done|]. cbn. by rewrite Hfg, IH.
Qed.

Lemma columns_cards st :
  concat (snd <$> BoardView.columns toLowerCase st)
  ≡ₚ concat ((fun l => BoardView.cardsOfList toLowerCase st l)
               <$> JsArray.sort BoardView.compareOrder (lists st)).
Proof.
  unfold BoardView.columns. rewrite <- list_fmap_compose.
  apply concat_Permutation_pointwise. intros l. cbn.
  apply renderedCards_Permutation.
Qed.

End Board.

(** ** Searching with a longer term *)

Section SearchTerms.

Variable toLowerCase : string -> string.
Hypothesis toLowerCase_ascii : lowers_ascii toLowerCase.

Lemma substring_of_trans a b c :
  substring_of a b -> substring_of b c -> substring_of a c.
Proof.
  intros (p1 & q1 & ->) (p2 & q2 & ->).
  exists (p2 +:+ p1), (q1 +:+ q2). by rewrite !string_app_assoc.
Qed.

Lemma substring_of_lower a b :
  Js.ascii_only b -> substring_of a b ->
  substring_of (toLowerCase a) (toLowerCase b).
Proof.
  intros Hb Hsub.
  rewrite (toLowerCase_ascii b Hb), (toLowerCase_ascii a)
    by by eapply ascii_only_substring.
  destruct Hsub as (p & q & ->).
  exists (Js.asciiLowerCase p), (Js.asciiLowerCase q).
  by rewrite !asciiLowerCase_app.
Qed.

Lemma matchesSearch_shorter term term' card :
  Js.ascii_only term' -> substring_of term term' ->
  matchesSearch toLowerCase term' card = true ->
  matchesSearch toLowerCase term card = true.
Proof.
  intros Hascii Hsub. apply substring_of_lower in Hsub; [|done].
  rewrite !matchesSearch_spec.
  intros [H|H]; [left|right]; by eapply substring_of_trans.
Qed.

Lemma matchesSearch_same_ignoring_case term term' card :
  Js.ascii_only term -> Js.ascii_only term' ->
  same_ignoring_case term term' ->
  matchesSearch toLowerCase term' card = matchesSearch toLowerCase term card.
Proof.
  intros H H' Hsame%asciiLowerCase_same. unfold matchesSearch.
  by rewrite (toLowerCase_ascii term H), (toLowerCase_ascii term' H'), Hsame.
Qed.

Lemma filter_sublist_impl {A} (P Q : A -> Prop)
    `{!forall x, Decision (P x)} `{!forall x, Decision (Q x)} (l : list A) :
  (forall x, P x -> Q x) -> filter P l `sublist_of` filter Q l.
Proof.
  intros HPQ. induction l as [|x l IH]; [done|].
  rewrite !filter_cons. destruct (decide (P x)) as [HP|HP].
  - rewrite decide_True by auto. by apply sublist_skip.
  - destruct (decide (Q x)); [by apply sublist_cons|done].
Qed.

End SearchTerms.

(** ** A session of the store *)

Section Session.

Implicit Types (st : IKanbanState) (items : gmap string string).

Lemma persistEffect_available st items className :
  persistEffect st (mkBrowser (Available items) className)
  = Js.Normal
      (mkBrowser
         (Available (<[STORAGE_KEY := JSON.stringify (js_of_state st)]> items))
         (js_of_theme (theme st))).
Proof. done. Qed.

Lemma load_persisted now st items :
  getInitialState JSON.parse now
    (Available (<[STORAGE_KEY := JSON.stringify (js_of_state st)]> items))
  = js_of_state st.
Proof.
  unfold getInitialState. cbn [getItem]. rewrite lookup_insert_eq.
  rewrite decide_False by apply stringify_nonempty.
  by rewrite parse_stringify.
Qed.

Lemma afterRender_ascending st :
  ascending IList.order (lists (BoardView.afterRender st)).
Proof. apply (sort_ascending IList.order), compareOrder_key. Qed.

Lemma afterRender_of_ascending st :
  ascending IList.order (lists st) -> BoardView.afterRender st = st.
Proof.
  intros Hst. apply state_ext; try done. cbn.
  by apply (sort_of_ascending IList.order).
Qed.

Lemma afterRender_twice st :
  BoardView.afterRender (BoardView.afterRender st) = BoardView.afterRender st.
Proof. apply afterRender_of_ascending, afterRender_ascending. Qed.

Lemma renderApp_of_ascending page st :
  ascending IList.order (lists st) -> renderApp page st = st.
Proof. destruct page; [apply afterRender_of_ascending|done]. Qed.

(** On the page that offers the action, the render leaves what the
    render of the board leaves. *)
Lemma renderApp_offered page a st :
  offered page a = true -> ascending IList.order (lists st) ->
  renderApp page (dispatch a st) = BoardView.afterRender (dispatch a st).
Proof.
  intros Ha Hst. destruct page; [done|]. destruct a; try done.
  symmetry. by apply afterRender_of_ascending.
Qed.

Lemma renderedRun_ascending events : forall st,
  ascending IList.order (lists st) ->
  ascending IList.order (lists (renderedRun events st)).
Proof.
  unfold renderedRun. induction events as [|a events IH]; intros st Hst;
    [done|].
  cbn [foldl]. apply IH, afterRender_ascending.
Qed.

Lemma sessionSteps_available events : forall page st items,
  routed page events = true ->
  ascending IList.order (lists st) ->
  sessionSteps events
    (page, st,
     mkBrowser
       (Available (<[STORAGE_KEY := JSON.stringify (js_of_state st)]> items))
       (js_of_theme (theme st)))
  = Js.Normal
      (pageAfter page events, renderedRun (actions events) st,
       mkBrowser
         (Available
            (<[STORAGE_KEY :=
                 JSON.stringify
                   (js_of_state (renderedRun (actions events) st))]> items))
         (js_of_theme (theme (renderedRun (actions events) st)))).
Proof.
  induction events as [|[a|page'] events IH];
    intros page st items Hrouted Hst; [done| |].
  - cbn [routed] in Hrouted. apply andb_true_iff in Hrouted as [Ha Hrouted].
    cbn [sessionSteps sessionStep].
    rewrite renderApp_offered, persistEffect_available, insert_insert_eq
      by done.
    rewrite (IH page _ items Hrouted)
      by apply afterRender_ascending.
    done.
  - cbn [routed] in Hrouted. cbn [sessionSteps sessionStep].
    rewrite renderApp_of_ascending by done.
    by rewrite (IH page' _ items Hrouted).
Qed.

Lemma session_available events st0 items className :
  routed board events = true ->
  let st := renderedRun (actions events) (BoardView.afterRender st0) in
  session st0 events (mkBrowser (Available items) className)
  = Js.Normal
      (pageAfter board events, st,
       mkBrowser
         (Available (<[STORAGE_KEY := JSON.stringify (js_of_state st)]> items))
         (js_of_theme (theme st))).
Proof.
  intros Hrouted st. unfold session. cbn [renderApp].
  rewrite persistEffect_available.
  by rewrite (sessionSteps_available events board _ items Hrouted)
    by apply afterRender_ascending.
Qed.

End Session.

(** * Further properties, stated *)

Section Extras.

Implicit Types (st : IKanbanState) (now : nat -> Z).


(** X2: setCardList gives the cards one for one: a card with the id gets
    the new list and keeps its other fields, every other card is as it
    was; and of two setCardList calls for one id the later decides. *)
Theorem X2_setCardList_relocates st (cardId newListId : string) :
  Forall2
    (fun card card' =>
       if decide (ICard.id card = cardId)
       then card' = ICard.mk (ICard.id card) newListId (ICard.title card)
                      (ICard.description card) (ICard.createdAt card)
       else card' = card)
    (cards st) (cards (setCardList cardId newListId st))
  /\ forall otherListId,
       setCardList cardId newListId (setCardList cardId otherListId st)
       = setCardList cardId newListId st.
Proof.
  split.
  - cbn. apply Forall2_fmap_r, Forall_Forall2_diag, Forall_forall.
    intros card _. cbn. by destruct (decide (ICard.id card = cardId)).
  - intros. apply setCardList_overwrite.
Qed.

(** X3: after setCardList of the id of a card of the state, a column of
    the board shows a card with that id only if its list has the target
    id, and it shows the moved card (the card with its listId set to the
    target) exactly when its list has the target id and the moved card
    matches the search term; every list of the state has a column. So
    the moved card shows in the target column when the target is a list
    of the board and the search does not hide it, and in no other
    column. *)
Theorem X3_moved_card_shows_in_target (toLowerCase : string -> string) st
    (cardId newListId : string) (card : ICard.t) :
  card ∈ cards st -> ICard.id card = cardId ->
  let moved := ICard.mk (ICard.id card) newListId (ICard.title card)
                 (ICard.description card) (ICard.createdAt card) in
  let st' := setCardList cardId newListId st in
  Forall
    (fun column =>
       (forall c, c ∈ column.2 -> ICard.id c = cardId ->
                  IList.id column.1 = newListId)
       /\ (moved ∈ column.2 <->
           IList.id column.1 = newListId
           /\ matchesSearch toLowerCase (searchTerm st) moved = true))
    (BoardView.columns toLowerCase st')
  /\ forall list, list ∈ lists st ->
       exists column,
         column ∈ BoardView.columns toLowerCase st' /\ column.1 = list.
Proof.
  intros Hin Hid moved st'. split.
  - unfold BoardView.columns. apply Forall_fmap, Forall_forall.
    intros list _. cbn [fst snd]. split.
    + intros c. rewrite renderedCards_Permutation.
      intros (Hc & _ & Hl)%cardsOfList_spec Hcid. cbn [fst]. rewrite <- Hl.
      cbn in Hc. apply list_elem_of_fmap in Hc as (c0 & -> & _).
      revert Hcid. by case_decide.
    + cbn [fst snd]. rewrite renderedCards_Permutation, cardsOfList_spec.
      assert (moved ∈ cards st') as Hmoved.
      { cbn. apply list_elem_of_fmap. exists card. split; [|done].
        by rewrite decide_True. }
      cbn [fst searchTerm st' setCardList]. cbn [ICard.listId moved]. split.
      * by intros (_ & Hm & <-).
      * by intros [<- Hm].
  - intros list Hlist.
    assert (list ∈ fst <$> BoardView.columns toLowerCase st') as Hcol.
    { rewrite columns_lists, sortedLists_Permutation. done. }
    apply list_elem_of_fmap in Hcol as (column & -> & Hcol). by exists column.
Qed.

Lemma X3_moved_card_witness :
  let st' := setCardList "card-3" "list-3"
               (seedState (fun _ => 1700000000000)) in
  let moved :=
    ICard.mk "card-3" "list-3" "Desenvolver Drag & Drop"
      "Aplicar a lógica de D&D para mover cartões entre as colunas."
      (1700000000000 - 600000) in
  Forall
    (fun column =>
       (forall c, c ∈ column.2 -> ICard.id c = "card-3" ->
                  IList.id column.1 = "list-3")
       /\ (moved ∈ column.2 <->
           IList.id column.1 = "list-3"
           /\ matchesSearch Js.asciiLowerCase "" moved = true))
    (BoardView.columns Js.asciiLowerCase st')
  /\ forall list, list ∈ lists (seedState (fun _ => 1700000000000)) ->
       exists column,
         column ∈ BoardView.columns Js.asciiLowerCase st'
         /\ column.1 = list.
Proof.
  apply (X3_moved_card_shows_in_target Js.asciiLowerCase
           (seedState (fun _ => 1700000000000)) "card-3" "list-3"
           (ICard.mk "card-3" "list-2" "Desenvolver Drag & Drop"
              "Aplicar a lógica de D&D para mover cartões entre as colunas."
              (1700000000000 - 600000))).
  - apply (bool_decide_unpack _). vm_compute. exact I.
  - reflexivity.
Defined.

(** X4: the card actions commute across kinds, whatever the ids:
    setCardList with updateCard, and deleteCard with setCardList,
    updateCard and deleteCard. *)
Theorem X4_card_actions_commute st (c c' l t d : string) :
  setCardList c l (updateCard c' t d st)
  = updateCard c' t d (setCardList c l st)
  /\ deleteCard c (setCardList c' l st) = setCardList c' l (deleteCard c st)
  /\ deleteCard c (updateCard c' t d st) = updateCard c' t d (deleteCard c st)
  /\ deleteCard c (deleteCard c' st) = deleteCard c' (deleteCard c st).
Proof.
  split_and!.
  - apply setCardList_updateCard_comm.
  - apply deleteCard_setCardList_comm.
  - apply deleteCard_updateCard_comm.
  - apply deleteCard_comm.
Qed.

(** X5: two setCardList calls, or two updateCard calls, for different
    ids commute. *)
Theorem X5_same_action_other_card_commutes st (c c' l l' t d t' d' : string) :
  c <> c' ->
  setCardList c l (setCardList c' l' st)
  = setCardList c' l' (setCardList c l st)
  /\ updateCard c t d (updateCard c' t' d' st)
     = updateCard c' t' d' (updateCard c t d st).
Proof.
  intros Hne. split; [by apply setCardList_comm|by apply updateCard_comm].
Qed.

Lemma X5_other_card_witness :
  let st := seedState (fun _ => 1700000000000) in
  setCardList "card-1" "list-2" (setCardList "card-3" "list-3" st)
  = setCardList "card-3" "list-3" (setCardList "card-1" "list-2" st)
  /\ updateCard "card-1" "A" "B" (updateCard "card-3" "C" "D" st)
     = updateCard "card-3" "C" "D" (updateCard "card-1" "A" "B" st).
Proof.
  apply X5_same_action_other_card_commutes. discriminate.
Defined.

(** X6: of two updateCard calls for one id the later decides, and a
    deleteCard after a setCardList or an updateCard of the same id gives
    what deleteCard alone gives. *)
Theorem X6_later_action_decides st (c l t1 d1 t2 d2 : string) :
  updateCard c t2 d2 (updateCard c t1 d1 st) = updateCard c t2 d2 st
  /\ deleteCard c (setCardList c l st) = deleteCard c st
  /\ deleteCard c (updateCard c t1 d1 st) = deleteCard c st.
Proof.
  assert (forall card, card ∈ cards (deleteCard c st) -> ICard.id card <> c)
    as Hgone.
  { intros card Hin. cbn in Hin. by apply list_elem_of_filter in Hin as [? _]. }
  split_and!.
  - apply updateCard_overwrite.
  - rewrite deleteCard_setCardList_comm. by apply setCardList_unmatched.
  - rewrite deleteCard_updateCard_comm. by apply updateCard_unmatched.
Qed.

(** X7: toggling the theme twice gives the state back, so after any
    number of toggles the state is the original one when the number is
    even, and the once toggled one when it is odd. *)
Theorem X7_toggleTheme_parity st (n : nat) :
  Nat.iter n toggleTheme st = if Nat.even n then st else toggleTheme st.
Proof.
  induction n as [|n IH]; [done|].
  rewrite Nat.even_succ, <- Nat.negb_even, Nat.iter_succ, IH.
  destruct (Nat.even n); cbn [negb]; [done|apply toggleTheme_twice].
Qed.

(** X8: deleting a card just added gives the state back, when no card had
    the id the clock gave. *)
Theorem X8_addCard_then_deleteCard st (idNow createdNow : Z)
    (listId title description : string) :
  "card-" +:+ Js.Number_toString idNow ∉ ICard.id <$> cards st ->
  deleteCard ("card-" +:+ Js.Number_toString idNow)
    (addCard idNow createdNow listId title description st)
  = st.
Proof.
  intros Hfresh. apply state_ext; try done. cbn.
  rewrite filter_app, filter_cons_False, filter_nil, app_nil_r by (cbn; auto).
  apply filter_all. intros card Hin Heq. apply Hfresh. rewrite <- Heq.
  by apply list_elem_of_fmap_2.
Qed.

Lemma X8_addCard_then_deleteCard_witness :
  let st := seedState (fun _ => 1700000000000) in
  deleteCard ("card-" +:+ Js.Number_toString 1700000000000)
    (addCard 1700000000000 1700000000000 "list-1" "T" "D" st)
  = st.
Proof.
  apply X8_addCard_then_deleteCard.
  apply (bool_decide_unpack _). vm_compute. exact I.
Defined.

(** X9: along every run from the seed state in which each operation is
    called from the latest render (the render of the state it is applied
    to, as when every handler calls the store once), the lists are
    numbered from zero in the order they have: the orders are 0, 1, ...,
    one for each of the three seed lists and of the lists added. *)
Theorem X9_list_orders_count_from_zero now (events : list Action) :
  IList.order <$> lists (run events (seedState now))
  = orders_upto (3 + length (list_id_clock events)).
Proof.
  rewrite run_orders by done. f_equal. by rewrite run_lists_length.
Qed.

(** X10: the sort of the lists that the board does in place while it
    renders changes no state that a run from the seed reaches; a run with
    a render after every event ends in the state of the run without. *)
Theorem X10_render_leaves_the_store now (events : list Action) :
  BoardView.afterRender (run events (seedState now))
  = run events (seedState now)
  /\ foldl (fun s a => BoardView.afterRender (dispatch a s))
       (BoardView.afterRender (seedState now)) events
     = run events (seedState now).
Proof.
  split; [apply afterRender_ordered; by apply run_orders|].
  rewrite afterRender_ordered by done.
  assert (IList.order <$> lists (seedState now)
          = orders_upto (length (lists (seedState now)))) as Hseed by done.
  revert Hseed. generalize (seedState now).
  induction events as [|a events IH]; intros st Hst; [done|].
  cbn [foldl]. rewrite run_cons.
  rewrite afterRender_ordered by by apply dispatch_orders.
  by apply IH, dispatch_orders.
Qed.

(** X11: no action changes the id or the creation instant of a card:
    every card at the end of a run has the id and createdAt of a card of
    the starting state, or the ones an addCard of the run gave it. *)
Theorem X11_card_identity_is_kept (events : list Action) st :
  Forall
    (fun card' =>
       (exists card, card ∈ cards st /\ ICard.id card' = ICard.id card
                     /\ ICard.createdAt card' = ICard.createdAt card)
       \/ (exists idNow createdNow listId title description,
             AddCard idNow createdNow listId title description ∈ events
             /\ ICard.id card' = "card-" +:+ Js.Number_toString idNow
             /\ ICard.createdAt card' = createdNow))
    (cards (run events st)).
Proof.
  apply Forall_forall. revert st.
  induction events as [|a events IH]; intros st card' Hin.
  - left. by exists card'.
  - rewrite run_cons in Hin.
    destruct (IH _ _ Hin) as [(c & Hc & Hid & Hat)|
                              (i & t & l & ti & d & He & Hid & Hat)].
    + destruct (dispatch_card_origin a st c Hc)
        as [(c0 & Hc0 & Hid0 & Hat0)|(i & t & l & ti & d & -> & Hid0 & Hat0)].
      * left. exists c0. split_and!; [done|congruence|congruence].
      * right. exists i, t, l, ti, d.
        split_and!; [by left|congruence|congruence].
    + right. exists i, t, l, ti, d. split_and!; [by right|done|done].
Qed.

(** X12: whatever the user does on the board from the seed state, one
    gesture after the other, every card is on a list of the board, every
    list title is not empty and neither starts nor ends with a white
    space character (a WhiteSpace or LineTerminator of ECMAScript), the
    orders of the lists count from zero, and no card has an empty id. *)
Theorem X12_gestures_keep_the_board now (gs : list Gesture) st' :
  performAll gs (seedState now) = Some st' ->
  cards_on_lists st'
  /\ (forall l, l ∈ lists st' -> trimmed_title (IList.title l))
  /\ IList.order <$> lists st' = orders_upto (length (lists st'))
  /\ (forall card, card ∈ cards st' -> ICard.id card <> "").
Proof.
  assert (cards_on_lists (seedState now)
          /\ (forall l, l ∈ lists (seedState now) ->
                        trimmed_title (IList.title l))
          /\ IList.order <$> lists (seedState now)
             = orders_upto (length (lists (seedState now)))
          /\ (forall card, card ∈ cards (seedState now) ->
                           ICard.id card <> "")) as Hseed.
  { split_and!; [| |done|].
    - unfold cards_on_lists.
      apply (proj1 (Forall_forall
                      (fun card => ICard.listId card
                                   ∈ IList.id <$> lists (seedState now)) _)).
      apply (bool_decide_unpack _). vm_compute. exact I.
    - apply (proj1 (Forall_forall
                      (fun l => trimmed_title (IList.title l)) _)).
      unfold trimmed_title, starts_with_white_space, ends_with_white_space.
      apply (bool_decide_unpack _). vm_compute. exact I.
    - apply (proj1 (Forall_forall (fun card => ICard.id card <> "") _)).
      apply (bool_decide_unpack _). vm_compute. exact I. }
  revert Hseed. generalize (seedState now). revert st'.
  induction gs as [|g gs IH]; intros st' st Hst Hrun; cbn in Hrun.
  - by injection Hrun as <-.
  - destruct (perform g st) as [st1|] eqn:Hg; [|done].
    apply perform_effect in Hg. destruct Hst as (H1 & H2 & H3 & H4).
    apply (IH st' st1); [|done]. split_and!.
    + by eapply effect_keeps_cards_on_lists.
    + by eapply effect_keeps_list_titles.
    + by eapply effect_keeps_orders.
    + by eapply effect_keeps_card_ids.
Qed.

Lemma X12_gestures_witness :
  let list3 := IList.mk "list-3" "Concluído" "--color-list-green" 2 in
  let card3 := ICard.mk "card-3" "list-2" "Desenvolver Drag & Drop" "" 0 in
  let gs := [ SubmitNewCard list3 "  Ship it " 1700000000005 1700000000005;
              DragAndDrop card3 list3;
              ClickAddList " Backlog " 1700000000009;
              TypeSearch "ship" ] in
  exists st',
    performAll gs (seedState (fun _ => 1700000000000)) = Some st'
    /\ cards_on_lists st'.
Proof.
  intros list3 card3 gs.
  destruct (performAll gs (seedState (fun _ => 1700000000000)))
    as [st'|] eqn:E.
  - exists st'. split; [done|].
    apply (X12_gestures_keep_the_board (fun _ => 1700000000000) gs st' E).
  - vm_compute in E. discriminate E.
Defined.

(** X13: the form of a list adds no card when the text typed is empty
    or all white space (WhiteSpace and LineTerminator characters of
    ECMAScript), and leaves the form as it is; for any other text it adds
    one card, on that list, with the fixed description and with the one
    title that is the text typed without the white space around it (not
    empty, no white space character at its start or at its end), and
    resets the form. *)
Theorem X13_handleAddCard_trims (list : IList.t) (idNow createdNow : Z)
    (ui : ListView.State) st :
  let typed := ListView.newCardTitle ui in
  (only_white_space (list_ascii_of_string typed) ->
   ListView.handleAddCard list idNow createdNow ui st = (ui, st))
  /\ (~ only_white_space (list_ascii_of_string typed) ->
      exists core,
        trimmed_from typed core
        /\ (forall core', trimmed_from typed core' -> core' = core)
        /\ ListView.handleAddCard list idNow createdNow ui st
           = (ListView.mkState "" false,
              addCard idNow createdNow (IList.id list) core
                "Adicione uma descrição aqui." st)).
Proof.
  intros typed. unfold ListView.handleAddCard. fold typed. split.
  - intros H%trim_empty. by rewrite H.
  - intros H. rewrite <- trim_empty in H. exists (JsString.trim typed).
    split_and!.
    + by apply trim_trimmed_from.
    + intros core'. apply trimmed_from_trim.
    + by apply truthy_spec in H as ->.
Qed.

Lemma X13_handleAddCard_witness :
  let list := IList.mk "list-1" "A Fazer" "--color-list-red" 0 in
  let st := seedState (fun _ => 1700000000000) in
  let typed :=
    String (JsString.byte 194) (String (JsString.byte 160) "  Ship it  ") in
  ListView.handleAddCard list 1700000000005 1700000000006
    (ListView.mkState typed true) st
  = (ListView.mkState "" false,
     addCard 1700000000005 1700000000006 "list-1" "Ship it"
       "Adicione uma descrição aqui." st).
Proof.
  intros list st typed.
  destruct (proj2 (X13_handleAddCard_trims list 1700000000005 1700000000006
                     (ListView.mkState typed true) st))
    as (core & Hcore & _ & Heq).
  - intros H%only_white_space_b_spec. vm_compute in H. discriminate H.
  - rewrite Heq. apply trimmed_from_trim in Hcore. rewrite Hcore.
    reflexivity.
Defined.

(** X14: the field for a new list adds no list when the text typed is
    empty or all white space, and leaves the field as it is; for any
    other text it appends one list with the yellow colour token, the
    number of lists as order, and the one title that is the text typed
    without the white space around it, and empties the field. *)
Theorem X14_handleAddList_trims (now : Z) (ui : BoardView.State) st :
  let typed := BoardView.newListTitle ui in
  (only_white_space (list_ascii_of_string typed) ->
   BoardView.handleAddList now ui st = (ui, st))
  /\ (~ only_white_space (list_ascii_of_string typed) ->
      exists core,
        trimmed_from typed core
        /\ (forall core', trimmed_from typed core' -> core' = core)
        /\ (BoardView.handleAddList now ui st).1
           = BoardView.mkState (BoardView.isModalOpen ui)
               (BoardView.selectedCard ui) ""
        /\ lists (BoardView.handleAddList now ui st).2
           = lists st ++
             [IList.mk ("list-" +:+ Js.Number_toString now) core
                "--color-list-yellow" (Z.of_nat (length (lists st)))]
        /\ cards (BoardView.handleAddList now ui st).2 = cards st).
Proof.
  intros typed. unfold BoardView.handleAddList. fold typed. split.
  - intros H%trim_empty. by rewrite H.
  - intros H. rewrite <- trim_empty in H. exists (JsString.trim typed).
    split_and!.
    + by apply trim_trimmed_from.
    + intros core'. apply trimmed_from_trim.
    + by apply truthy_spec in H as ->.
    + by apply truthy_spec in H as ->.
    + by apply truthy_spec in H as ->.
Qed.

Lemma X14_handleAddList_witness :
  let st := seedState (fun _ => 1700000000000) in
  let typed :=
    String (JsString.byte 194) (String (JsString.byte 160) " Backlog ") in
  let r := BoardView.handleAddList 1700000000005
             (BoardView.mkState false None typed) st in
  r.1 = BoardView.mkState false None ""
  /\ lists r.2
     = lists st ++
       [IList.mk ("list-" +:+ Js.Number_toString 1700000000005) "Backlog"
          "--color-list-yellow" 3]
  /\ cards r.2 = cards st.
Proof.
  intros st typed r.
  destruct (proj2 (X14_handleAddList_trims 1700000000005
                     (BoardView.mkState false None typed) st))
    as (core & Hcore & _ & H1 & H2 & H3).
  - intros H%only_white_space_b_spec. vm_compute in H. discriminate H.
  - apply trimmed_from_trim in Hcore. subst r. rewrite H1, H2, H3, Hcore.
    split_and!; reflexivity.
Defined.

(** X15: dropping on a list what the drag of a card started moves the
    card to that list (setCardList of the card's id and the list's id),
    unless the card's id is empty; a drop whose payload has no cardId
    changes nothing. *)
Theorem X15_drag_then_drop (card : ICard.t) (list : IList.t)
    (dt : DataTransfer) st :
  ListView.handleDrop list (CardComponent.handleDragStart card dt) st
  = (if decide (ICard.id card = "") then st
     else setCardList (ICard.id card) (IList.id list) st)
  /\ ListView.handleDrop list
       (mkDataTransfer (delete "cardId" (dragData dt)) (effectAllowed dt)
          (dropEffect dt)) st
     = st.
Proof.
  split; [apply handleDrop_after_dragStart|].
  unfold ListView.handleDrop, getData. cbn [dragData].
  by rewrite lookup_delete_eq.
Qed.

Lemma NoDup_fmap_eq {A B} (f : A -> B) (l : list A) x y :
  NoDup (f <$> l) -> x ∈ l -> y ∈ l -> f x = f y -> x = y.
Proof.
  induction l as [|z l IH]; intros Hnd Hx Hy Hf; [by apply elem_of_nil in Hx|].
  rewrite fmap_cons in Hnd. apply NoDup_cons in Hnd as [Hz Hnd].
  apply elem_of_cons in Hx as [->|Hx], Hy as [->|Hy]; try done.
  - destruct Hz. rewrite Hf. by apply list_elem_of_fmap_2.
  - destruct Hz. rewrite <- Hf. by apply list_elem_of_fmap_2.
  - by apply IH.
Qed.

(** X16: saving the modal of a card of the state without editing its
    fields gives the state back and closes the modal, when the card ids
    of the state are unique. *)
Theorem X16_modal_save_unedited st (card : ICard.t) :
  card ∈ cards st -> NoDup (ICard.id <$> cards st) ->
  CardModal.handleSubmit card (CardModal.initial card) st = (st, false).
Proof.
  intros Hin Hnd. unfold CardModal.handleSubmit, CardModal.initial.
  cbn [CardModal.title CardModal.description]. f_equal.
  apply state_with_cards, fmap_fixed. intros c Hc.
  case_decide as Hid; [|done].
  rewrite <- (NoDup_fmap_eq ICard.id _ c card Hnd Hc Hin Hid). by destruct c.
Qed.

Lemma X16_modal_save_witness :
  let st := seedState (fun _ => 1700000000000) in
  let card := ICard.mk "card-3" "list-2" "Desenvolver Drag & Drop"
                "Aplicar a lógica de D&D para mover cartões entre as colunas."
                (1700000000000 - 600000) in
  CardModal.handleSubmit card (CardModal.initial card) st = (st, false).
Proof.
  intros st card. apply X16_modal_save_unedited.
  - apply (bool_decide_unpack _). vm_compute. exact I.
  - apply (bool_decide_unpack _). vm_compute. exact I.
Defined.

(** X17: the board has one column for each list of the state; the cards
    of a column are the cards of the state that match the search term and
    have the id of the column's list as listId, as many as the count the
    column shows. A card whose listId is the id of no list is in no
    column. *)
Theorem X17_columns_show_the_matching_cards
    (toLowerCase : string -> string) st :
  fst <$> BoardView.columns toLowerCase st ≡ₚ lists st
  /\ Forall
       (fun column =>
          length column.2 = length (BoardView.cardsOfList toLowerCase st column.1)
          /\ forall card,
               card ∈ column.2 <->
               card ∈ cards st
               /\ matchesSearch toLowerCase (searchTerm st) card = true
               /\ ICard.listId card = IList.id column.1)
       (BoardView.columns toLowerCase st).
Proof.
  split.
  - rewrite columns_lists. apply sortedLists_Permutation.
  - unfold BoardView.columns. apply Forall_fmap, Forall_forall.
    intros list _. cbn. split.
    + by rewrite renderedCards_Permutation.
    + intros card. rewrite renderedCards_Permutation.
      apply cardsOfList_spec.
Qed.

(** X18: the columns are in ascending order of their lists, lists of
    equal order in the order the state has them; the cards of a column
    are newest first, cards of one creation instant in the order the
    state has them. *)
Theorem X18_columns_are_sorted (toLowerCase : string -> string) st :
  ascending IList.order (fst <$> BoardView.columns toLowerCase st)
  /\ (forall k,
        filter (fun l => IList.order l = k) (fst <$> BoardView.columns toLowerCase st)
        = filter (fun l => IList.order l = k) (lists st))
  /\ Forall
       (fun column =>
          ascending (fun c => - ICard.createdAt c) column.2
          /\ forall t,
               filter (fun c => ICard.createdAt c = t) column.2
               = filter (fun c => ICard.createdAt c = t)
                   (BoardView.cardsOfList toLowerCase st column.1))
       (BoardView.columns toLowerCase st).
Proof.
  split_and!.
  - rewrite columns_lists.
    apply (sort_ascending IList.order), compareOrder_key.
  - intros k. rewrite columns_lists.
    apply (sort_stable IList.order), compareOrder_key.
  - unfold BoardView.columns. apply Forall_fmap, Forall_forall.
    intros list _. cbn. split.
    + apply (sort_ascending (fun c => - ICard.createdAt c)),
        compareNewestFirst_key.
    + intros t.
      pose proof (sort_stable (fun c => - ICard.createdAt c)
                    ListView.compareNewestFirst compareNewestFirst_key
                    (- t) (BoardView.cardsOfList toLowerCase st list)) as H.
      etrans; [|etrans; [exact H|]]; apply list_filter_iff; intros c; lia.
Qed.

(** X19: when the list ids are unique, the columns together hold exactly
    the cards that match the search term and are on a list of the board,
    each as often as the state has it. *)
Theorem X19_columns_partition_the_cards
    (toLowerCase : string -> string) st :
  NoDup (IList.id <$> lists st) ->
  concat (snd <$> BoardView.columns toLowerCase st)
  ≡ₚ filter (fun c => ICard.listId c ∈ IList.id <$> lists st)
       (filteredCards toLowerCase (cards st) (searchTerm st)).
Proof.
  intros Hnd. rewrite columns_cards. unfold BoardView.cardsOfList.
  rewrite concat_by_list by by rewrite sortedLists_Permutation.
  apply reflexive_eq, list_filter_iff. intros c.
  by rewrite sortedLists_Permutation.
Qed.

Lemma X19_columns_partition_witness :
  let st := seedState (fun _ => 1700000000000) in
  concat (snd <$> BoardView.columns Js.asciiLowerCase st)
  ≡ₚ filter (fun c => ICard.listId c ∈ IList.id <$> lists st)
       (filteredCards Js.asciiLowerCase (cards st) (searchTerm st)).
Proof.
  intros st. apply X19_columns_partition_the_cards.
  apply (bool_decide_unpack _). vm_compute. exact I.
Defined.

(** X20: where lower-casing does on ASCII text what the runtime's does,
    a longer ASCII search term never finds more: the cards found for an
    ASCII term that contains another are among the cards found for the
    other, in the same order, whatever the texts of the cards; and two
    ASCII terms that differ only in the case of their letters find the
    same cards. *)
Theorem X20_longer_term_narrows (toLowerCase : string -> string)
    (cs : list ICard.t) (pre term post : string) :
  lowers_ascii toLowerCase ->
  Js.ascii_only pre -> Js.ascii_only term -> Js.ascii_only post ->
  filteredCards toLowerCase cs (pre +:+ term +:+ post)
    `sublist_of` filteredCards toLowerCase cs term
  /\ forall term', Js.ascii_only term' -> same_ignoring_case term term' ->
       filteredCards toLowerCase cs term' = filteredCards toLowerCase cs term.
Proof.
  intros Hf Hpre Hterm Hpost. split.
  - apply filter_sublist_impl. intros card.
    apply (matchesSearch_shorter _ Hf); [|by exists pre, post].
    apply ascii_only_app. split; [done|]. by apply ascii_only_app.
  - intros term' Hterm' Hsame. apply list_filter_iff. intros card.
    by rewrite (matchesSearch_same_ignoring_case _ Hf term term').
Qed.

Lemma X20_longer_term_witness :
  let cs := cards (seedState (fun _ => 1700000000000)) in
  filteredCards Js.asciiLowerCase cs ("Drag" +:+ " & " +:+ "Drop")
    `sublist_of` filteredCards Js.asciiLowerCase cs " & "
  /\ forall term', Js.ascii_only term' -> same_ignoring_case " & " term' ->
       filteredCards Js.asciiLowerCase cs term'
       = filteredCards Js.asciiLowerCase cs " & ".
Proof.
  apply X20_longer_term_narrows.
  - intros s _. reflexivity.
  - apply (bool_decide_unpack _). vm_compute. exact I.
  - apply (bool_decide_unpack _). vm_compute. exact I.
  - apply (bool_decide_unpack _). vm_compute. exact I.
Defined.

(** X21: in a session of the store on an available storage, in which
    every action is called on the page that offers it (the theme button
    on the settings page, everything else on the board), the state is the
    one of the run in which the board sorts the lists by order after
    every action, as its render does in place before the effect runs.
    After the first render and after every event the storage holds this
    state (loading it gives that state, so with the lists sorted), the
    class of the document is the current theme, a render changes the
    state no more, and no other key of the storage is written. *)
Theorem X21_session_persists_every_state now (st0 : IKanbanState)
    (events : list SessionEvent) (items : gmap string string)
    (className : string) :
  routed board events = true ->
  let st := renderedRun (actions events) (BoardView.afterRender st0) in
  exists b',
    session st0 events (mkBrowser (Available items) className)
    = Js.Normal (pageAfter board events, st, b')
    /\ getInitialState JSON.parse now (localStorage b') = js_of_state st
    /\ documentClassName b' = js_of_theme (theme st)
    /\ BoardView.afterRender st = st
    /\ forall key, key <> STORAGE_KEY ->
         getItem key (localStorage b') = Js.Normal (items !! key).
Proof.
  intros Hrouted st. rewrite session_available by done. fold st.
  eexists. split; [reflexivity|].
  split_and!; [apply load_persisted|done| |].
  - apply afterRender_of_ascending, renderedRun_ascending,
      afterRender_ascending.
  - intros key Hne. cbn [localStorage getItem]. by rewrite lookup_insert_ne.
Qed.

Lemma X21_session_witness :
  let listA := IList.mk "list-a" "A" "--color-list-red" 0 in
  let listB := IList.mk "list-b" "B" "--color-list-blue" 1 in
  let st0 := {| lists := [listB; listA]; cards := [];
                theme := light; searchTerm := "" |} in
  let events := [ Act (AddCard 1700000000001 1700000000002 "list-a" "T" "D");
                  SetCurrentPage settings; Act ToggleTheme;
                  SetCurrentPage board; Act (AddList 1700000000003 "C") ] in
  let st := renderedRun (actions events) (BoardView.afterRender st0) in
  lists st
  = [listA; listB;
     IList.mk ("list-" +:+ Js.Number_toString 1700000000003) "C"
       "--color-list-yellow" 2]
  /\ exists b',
       session st0 events (mkBrowser (Available ∅) "")
       = Js.Normal (board, st, b')
       /\ getInitialState JSON.parse (fun _ => 0) (localStorage b')
          = js_of_state st
       /\ documentClassName b' = js_of_theme (theme st)
       /\ BoardView.afterRender st = st
       /\ forall key, key <> STORAGE_KEY ->
            getItem key (localStorage b')
            = Js.Normal ((∅ : gmap string string) !! key).
Proof.
  intros listA listB st0 events st. split; [reflexivity|].
  apply (X21_session_persists_every_state (fun _ => 0) st0 events ∅ "").
  reflexivity.
Defined.

(** X22: with the storage unavailable the load falls back to the seed
    state, but the write is not guarded: the first persistence effect
    throws, whatever the state and the events. *)
Theorem X22_unavailable_storage
    (JSON_parse : string -> option JSON.value) now (st0 : IKanbanState)
    (events : list SessionEvent) (className : string) :
  getInitialState JSON_parse now Unavailable = js_of_state (seedState now)
  /\ session st0 events (mkBrowser Unavailable className) = Js.Throw.
Proof. done. Qed.

(** X23: the text written to the storage determines the state: two states
    that are persisted as the same text are equal. *)
Theorem X23_persisted_text_determines_state st st' :
  JSON.stringify (js_of_state st) = JSON.stringify (js_of_state st') ->
  st = st'.
Proof.
  intros H. apply js_of_state_inj.
  assert (Some (js_of_state st) = Some (js_of_state st')) as E
    by (by rewrite <- !parse_stringify, H).
  by apply (inj Some) in E.
Qed.

Lemma X23_persisted_text_witness :
  seedState (fun _ => 1700000000000) = seedState (fun _ => 1700000000000).
Proof.
  apply X23_persisted_text_determines_state. reflexivity.
Defined.

End Extras.
